(** * Verification of the mempool index and eviction engine

    Shallow embedding of [src/full_node/mempool.py] (class [Mempool]) and
    proofs of its index invariants, capacity bound, eviction policy and
    failure behaviour.

    Modelling choices.
    - [bytes32] values (transaction ids and coin ids) are 256-bit numbers;
      the pool only hashes and compares them.
    - [fee_per_cost] is a Python [float].  The pool only compares fee rates
      and uses them as dictionary keys, so a finite float is represented by
      the rational it denotes, in canonical form ([Qc]), with the usual
      order.
    - [spends], [additions] and [removals] are plain [dict]s whose order is
      never observed: they are finite maps ([gmap]).
    - Each bucket of [sorted_spends] is a plain [dict] whose {e insertion
      order} is observed by [list(val.values())[0]]: it is an association
      list in insertion order.
    - [sorted_spends] is a [SortedDict]: an association list kept in
      ascending key order, so that [peekitem(index=0)] is its head.
    - Python mutates the pool in place and may raise half-way through a
      method: every method is a function from the pool to a [result] that
      carries the pool as the exception left it. *)

From Stdlib Require Import ZArith QArith Qcanon List Sorted Lia.
From stdpp Require Import base option list gmap fin_maps.

Set Default Proof Using "Type".
Local Open Scope Z_scope.

(** ** Data model *)

Definition bytes32 := N.

(** Modelled from the spec: [src.types.coin.Coin] is not part of the
    sources at hand; the pool only ever calls [name()] on a coin, so a coin
    is represented by the identifier that call returns. *)
Record Coin := mkCoin { coin_name : bytes32 }.

(** Modelled from the spec: [SpendBundle] is not part of the sources at
    hand; the pool only calls [removals()] (the coins the transaction
    consumes) and [additions()] (the coins it creates), both lists. *)
Record SpendBundle := mkSpendBundle {
  sb_removals : list Coin;
  sb_additions : list Coin
}.

(** Modelled from the spec: [src.types.mempool_item.MempoolItem] is not part
    of the sources at hand; the pool reads its fields [spend_bundle],
    [fee_per_cost] and [name]. *)
Record MempoolItem := mkMempoolItem {
  spend_bundle : SpendBundle;
  fee_per_cost : Qc;
  name : bytes32
}.

(** Modelled from the spec: [src.types.header.Header], the chain tip the
    pool was built against; opaque to the pool. *)
Record Header := mkHeader { header_hash : bytes32 }.

(** A Python [dict] in insertion order. *)
Definition pydict (K V : Type) := list (K * V).

Section pydict.
Context {K V : Type} `{EqDecision K}.

(** [d.get(k)] *)
Fixpoint dict_get (k : K) (d : pydict K V) : option V :=
  match d with
  | [] => None
  | (k', v) :: d' => if decide (k' = k) then Some v else dict_get k d'
  end.

(** [d[k] = v]: an existing key keeps its position, a new key goes last. *)
Fixpoint dict_set (k : K) (v : V) (d : pydict K V) : pydict K V :=
  match d with
  | [] => [(k, v)]
  | (k', v') :: d' =>
      if decide (k' = k) then (k, v) :: d' else (k', v') :: dict_set k v d'
  end.

(** [del d[k]] on a key that is present. *)
Fixpoint dict_del (k : K) (d : pydict K V) : pydict K V :=
  match d with
  | [] => []
  | (k', v') :: d' =>
      if decide (k' = k) then d' else (k', v') :: dict_del k d'
  end.

Definition dict_keys (d : pydict K V) : list K := d.*1.
Definition dict_values (d : pydict K V) : list V := d.*2.
End pydict.

(** A bucket of [sorted_spends]: [Dict[bytes32, MempoolItem]]. *)
Definition Bucket := pydict bytes32 MempoolItem.

(** [sortedcontainers.SortedDict] from fee rate to bucket. *)
Definition SortedDict := list (Qc * Bucket).

(** [d.get(k)] *)
Fixpoint sd_get (k : Qc) (d : SortedDict) : option Bucket :=
  match d with
  | [] => None
  | (k', b) :: d' =>
      match (k ?= k')%Qc with
      | Eq => Some b
      | _ => sd_get k d'
      end
  end.

(** [d[k] = b]: replaces the value of an existing key, otherwise inserts the
    key at its place in the order. *)
Fixpoint sd_set (k : Qc) (b : Bucket) (d : SortedDict) : SortedDict :=
  match d with
  | [] => [(k, b)]
  | (k', b') :: d' =>
      match (k ?= k')%Qc with
      | Eq => (k, b) :: d'
      | Lt => (k, b) :: (k', b') :: d'
      | Gt => (k', b') :: sd_set k b d'
      end
  end.

(** [del d[k]] on a key that is present. *)
Fixpoint sd_del (k : Qc) (d : SortedDict) : SortedDict :=
  match d with
  | [] => []
  | (k', b') :: d' =>
      match (k ?= k')%Qc with
      | Eq => d'
      | _ => (k', b') :: sd_del k d'
      end
  end.

(** [class Mempool] *)
Record Mempool := mkMempool {
  header : Header;
  spends : gmap bytes32 MempoolItem;
  sorted_spends : SortedDict;
  additions : gmap bytes32 MempoolItem;
  removals : gmap bytes32 MempoolItem;
  min_fee : Z;
  size : Z
}.

(** [len(d)] of a plain dict. *)
Definition len (d : gmap bytes32 MempoolItem) : Z := Z.of_nat (base.size d).

Definition set_spends (s : gmap bytes32 MempoolItem) (m : Mempool) : Mempool :=
  mkMempool (header m) s (sorted_spends m) (additions m) (removals m)
            (min_fee m) (size m).
Definition set_sorted_spends (s : SortedDict) (m : Mempool) : Mempool :=
  mkMempool (header m) (spends m) s (additions m) (removals m)
            (min_fee m) (size m).
Definition set_additions (a : gmap bytes32 MempoolItem) (m : Mempool) : Mempool :=
  mkMempool (header m) (spends m) (sorted_spends m) a (removals m)
            (min_fee m) (size m).
Definition set_removals (r : gmap bytes32 MempoolItem) (m : Mempool) : Mempool :=
  mkMempool (header m) (spends m) (sorted_spends m) (additions m) r
            (min_fee m) (size m).

(** ** Exceptions and the method monad *)

Inductive exn := KeyError | IndexError.

(** Outcome of a method call: it returns [a] and leaves the pool [m], or it
    raises [e] and leaves the pool [m] as mutated so far. *)
Inductive result (A : Type) :=
| Ok (a : A) (m : Mempool)
| Raise (e : exn) (m : Mempool).
Arguments Ok {A} a m.
Arguments Raise {A} e m.

Definition M (A : Type) := Mempool -> result A.

Definition ret {A} (a : A) : M A := fun m => Ok a m.
Definition raise {A} (e : exn) : M A := fun m => Raise e m.
Definition bind {A B} (c : M A) (f : A -> M B) : M B :=
  fun m => match c m with
           | Ok a m' => f a m'
           | Raise e m' => Raise e m'
           end.
Definition get : M Mempool := fun m => Ok m m.
Definition modify (f : Mempool -> Mempool) : M unit := fun m => Ok tt (f m).

Declare Scope M_scope.
Delimit Scope M_scope with M.
Bind Scope M_scope with M.
Notation "x ← y ; z" := (bind y (fun x => z))
  (at level 20, y at level 100, z at level 200, only parsing) : M_scope.
Notation "x ;; z" := (bind x (fun _ => z))
  (at level 100, z at level 200, only parsing, right associativity) : M_scope.
Local Open Scope M_scope.

(** [for x in l: body(x)] *)
Fixpoint for_each {A} (l : list A) (body : A -> M unit) : M unit :=
  match l with
  | [] => ret tt
  | x :: l' => body x ;; for_each l' body
  end.

(** ** The methods of [Mempool] *)

(** [Mempool.create(tip, size)] *)
Definition create (tip : Header) (size : Z) : Mempool :=
  mkMempool tip ∅ [] ∅ ∅ 0 size.

(** [at_full_capacity]: [len(self.spends.keys()) >= self.size] *)
Definition at_full_capacity : M bool :=
  fun m => Ok (bool_decide (size m <= len (spends m))) m.

(** [self.sorted_spends.peekitem(index=0)] *)
Definition peekitem0 : M (Qc * Bucket) :=
  fun m => match sorted_spends m with
           | [] => Raise IndexError m
           | kv :: _ => Ok kv m
           end.

(** [get_min_fee_rate] *)
Definition get_min_fee_rate : M Qc :=
  full ← at_full_capacity;
  if full then
    kv ← peekitem0;
    ret kv.1
  else ret 0%Qc.

(** [del self.removals[k]] *)
Definition del_removals (k : bytes32) : M unit :=
  fun m => match removals m !! k with
           | Some _ => Ok tt (set_removals (delete k (removals m)) m)
           | None => Raise KeyError m
           end.

(** [del self.additions[k]] *)
Definition del_additions (k : bytes32) : M unit :=
  fun m => match additions m !! k with
           | Some _ => Ok tt (set_additions (delete k (additions m)) m)
           | None => Raise KeyError m
           end.

(** [del self.spends[k]] *)
Definition del_spends (k : bytes32) : M unit :=
  fun m => match spends m !! k with
           | Some _ => Ok tt (set_spends (delete k (spends m)) m)
           | None => Raise KeyError m
           end.

(** [self.sorted_spends[f]] *)
Definition sorted_spends_getitem (f : Qc) : M Bucket :=
  fun m => match sd_get f (sorted_spends m) with
           | Some b => Ok b m
           | None => Raise KeyError m
           end.

(** [del self.sorted_spends[f][k]]: the bucket is looked up, then mutated in
    place; it stays the value stored under [f]. *)
Definition del_sorted_spends_item (f : Qc) (k : bytes32) : M unit :=
  b ← sorted_spends_getitem f;
  match dict_get k b with
  | Some _ => modify (fun m => set_sorted_spends
                                 (sd_set f (dict_del k b) (sorted_spends m)) m)
  | None => raise KeyError
  end.

(** [del self.sorted_spends[f]] *)
Definition del_sorted_spends (f : Qc) : M unit :=
  fun m => match sd_get f (sorted_spends m) with
           | Some _ => Ok tt (set_sorted_spends (sd_del f (sorted_spends m)) m)
           | None => Raise KeyError m
           end.

(** [remove_spend] *)
Definition remove_spend (item : MempoolItem) : M unit :=
  let removals_list := sb_removals (spend_bundle item) in
  let additions_list := sb_additions (spend_bundle item) in
  for_each removals_list (fun rem => del_removals (coin_name rem)) ;;
  for_each additions_list (fun add => del_additions (coin_name add)) ;;
  del_spends (name item) ;;
  del_sorted_spends_item (fee_per_cost item) (name item) ;;
  dic ← sorted_spends_getitem (fee_per_cost item);
  if bool_decide (length (dict_values dic) = 0%nat)
  then del_sorted_spends (fee_per_cost item)
  else ret tt.

(** [list(val.values())[0]] *)
Definition first_value (val : Bucket) : M MempoolItem :=
  match dict_values val with
  | [] => raise IndexError
  | v :: _ => ret v
  end.

(** [self.sorted_spends[f][k] = item]: the bucket stored under [f] is
    mutated in place. *)
Definition sorted_spends_setitem_item (f : Qc) (k : bytes32) (item : MempoolItem)
  : M unit :=
  b ← sorted_spends_getitem f;
  modify (fun m => set_sorted_spends
                     (sd_set f (dict_set k item b) (sorted_spends m)) m).

(** [add_to_pool]; [removals_dic] is a [Dict[bytes32, Coin]]. *)
Definition add_to_pool (item : MempoolItem) (additions_list : list Coin)
    (removals_dic : pydict bytes32 Coin) : M unit :=
  (full ← at_full_capacity;
   if full then
     kv ← peekitem0;
     to_remove ← first_value kv.2;
     remove_spend to_remove
   else ret tt) ;;
  modify (fun m => set_spends (<[name item := item]> (spends m)) m) ;;
  (m ← get;
   if bool_decide (is_Some (sd_get (fee_per_cost item) (sorted_spends m)))
   then sorted_spends_setitem_item (fee_per_cost item) (name item) item
   else
     modify (fun m => set_sorted_spends
                        (sd_set (fee_per_cost item) [] (sorted_spends m)) m) ;;
     sorted_spends_setitem_item (fee_per_cost item) (name item) item) ;;
  for_each additions_list (fun add =>
    modify (fun m => set_additions (<[coin_name add := item]> (additions m)) m)) ;;
  for_each (dict_keys removals_dic) (fun key =>
    modify (fun m => set_removals (<[key := item]> (removals m)) m)).

(** ** Calls, outcomes and call sequences *)

Definition state_of {A} (r : result A) : Mempool :=
  match r with
  | Ok _ m => m
  | Raise _ m => m
  end.

(** The two mutating calls a client can make. *)
Inductive call :=
| AddToPool (item : MempoolItem) (additions_list : list Coin)
            (removals_dic : pydict bytes32 Coin)
| RemoveSpend (item : MempoolItem).

Definition exec (c : call) : M unit :=
  match c with
  | AddToPool item additions_list removals_dic =>
      add_to_pool item additions_list removals_dic
  | RemoveSpend item => remove_spend item
  end.

(** Any sequence of calls, whether or not it respects the contract: a call
    that raises leaves the pool as mutated so far and the next call goes
    on from there. *)
Fixpoint run (cs : list call) (m : Mempool) : Mempool :=
  match cs with
  | [] => m
  | c :: cs' => run cs' (state_of (exec c m))
  end.

(** The identifiers of the coins an entry consumes and produces. *)
Definition consumed (item : MempoolItem) : list bytes32 :=
  coin_name <$> sb_removals (spend_bundle item).
Definition produced (item : MempoolItem) : list bytes32 :=
  coin_name <$> sb_additions (spend_bundle item).

(** The contract of [add_to_pool] as the specification states it: the id
    is not in the pool, the entry's coin lists are sets, and the coins
    passed along are the entry's. *)
Definition admit_pre (m : Mempool) (item : MempoolItem)
    (additions_list : list Coin) (removals_dic : pydict bytes32 Coin) : Prop :=
  spends m !! name item = None ∧
  NoDup (consumed item) ∧ NoDup (produced item) ∧
  (∀ c, c ∈ coin_name <$> additions_list ↔ c ∈ produced item) ∧
  (∀ c, c ∈ dict_keys removals_dic ↔ c ∈ consumed item).

(** The same contract together with the conflict resolution the caller is
    expected to have done: none of the entry's coins is in the coin
    indices. *)
Definition admit_pre_no_conflict (m : Mempool) (item : MempoolItem)
    (additions_list : list Coin) (removals_dic : pydict bytes32 Coin) : Prop :=
  admit_pre m item additions_list removals_dic ∧
  (∀ c, c ∈ consumed item → removals m !! c = None) ∧
  (∀ c, c ∈ produced item → additions m !! c = None).

(** States reached from [m0] by completed calls that respect the contract
    [pre] of [add_to_pool] and remove only entries that are admitted. *)
Inductive steps
    (pre : Mempool → MempoolItem → list Coin → pydict bytes32 Coin → Prop)
    (m0 : Mempool) : Mempool → Prop :=
| steps_init : steps pre m0 m0
| steps_add m item additions_list removals_dic m' :
    steps pre m0 m →
    pre m item additions_list removals_dic →
    add_to_pool item additions_list removals_dic m = Ok tt m' →
    steps pre m0 m'
| steps_remove m item m' :
    steps pre m0 m →
    spends m !! name item = Some item →
    remove_spend item m = Ok tt m' →
    steps pre m0 m'.

(** ** The index invariant *)

(** Keys of a [SortedDict] are strictly ascending. *)
Definition sd_sorted (d : SortedDict) : Prop := StronglySorted Qclt d.*1.

(** No key of [sorted_spends] is mapped to an empty bucket. *)
Definition no_empty_bucket (d : SortedDict) : Prop :=
  Forall (λ kb, kb.2 ≠ []) d.

(** Number of times the id [k] occurs in the buckets of [d]. *)
Definition bucket_count (k : bytes32) (d : SortedDict) : nat :=
  sum_list ((λ kb : Qc * list (bytes32 * MempoolItem),
               length (filter (λ e : bytes32 * MempoolItem, e.1 = k) kb.2)) <$> d).

(** Coherence of [spends] and [sorted_spends]. *)
Record coherent_ids (m : Mempool) : Prop := mkCoherentIds {
  coh_sorted : sd_sorted (sorted_spends m);
  coh_no_empty : no_empty_bucket (sorted_spends m);
  (** every entry of a bucket is an admitted entry filed under its own id
      and fee rate, and a bucket holds an id once *)
  coh_bucket : ∀ f b, sd_get f (sorted_spends m) = Some b →
    NoDup (dict_keys b) ∧
    ∀ k it, dict_get k b = Some it →
      name it = k ∧ fee_per_cost it = f ∧ spends m !! k = Some it;
  (** every admitted entry is filed under its id, in the bucket of its
      fee rate *)
  coh_spends : ∀ k it, spends m !! k = Some it →
    name it = k ∧
    ∃ b, sd_get (fee_per_cost it) (sorted_spends m) = Some b ∧
         dict_get k b = Some it
}.

(** Coherence of the four indices. *)
Record coherent (m : Mempool) : Prop := mkCoherent {
  coh_ids :> coherent_ids m;
  (** every coin of an admitted entry is in the coin index and maps to it *)
  coh_consumed : ∀ k it, spends m !! k = Some it →
    NoDup (consumed it) ∧ ∀ c, c ∈ consumed it → removals m !! c = Some it;
  coh_produced : ∀ k it, spends m !! k = Some it →
    NoDup (produced it) ∧ ∀ c, c ∈ produced it → additions m !! c = Some it;
  (** every coin of a coin index belongs to the admitted entry it maps to *)
  coh_removals : ∀ c it, removals m !! c = Some it →
    spends m !! name it = Some it ∧ c ∈ consumed it;
  coh_additions : ∀ c it, additions m !! c = Some it →
    spends m !! name it = Some it ∧ c ∈ produced it
}.

(** [del] of a list of keys, one after the other. *)
Definition del_keys (ks : list bytes32) (d : gmap bytes32 MempoolItem)
  : gmap bytes32 MempoolItem :=
  foldl (λ d k, delete k d) d ks.

(** [d[k] = item] for a list of keys, one after the other. *)
Definition set_keys (ks : list bytes32) (item : MempoolItem)
    (d : gmap bytes32 MempoolItem) : gmap bytes32 MempoolItem :=
  foldl (λ d k, <[k := item]> d) d ks.

(** What [remove_spend] does to [sorted_spends] once it has found the
    bucket [b] of the entry. *)
Definition sd_remove_item (f : Qc) (k : bytes32) (b : Bucket) (d : SortedDict)
  : SortedDict :=
  let d' := sd_set f (dict_del k b) d in
  if bool_decide (length (dict_values (dict_del k b)) = 0%nat)
  then sd_del f d' else d'.

(** The pool a completed [remove_spend] leaves, [b] being the bucket of the
    entry. *)
Definition removed (item : MempoolItem) (b : Bucket) (m : Mempool) : Mempool :=
  mkMempool (header m)
            (delete (name item) (spends m))
            (sd_remove_item (fee_per_cost item) (name item) b (sorted_spends m))
            (del_keys (produced item) (additions m))
            (del_keys (consumed item) (removals m))
            (min_fee m) (size m).

(** What [add_to_pool] does to [sorted_spends] after the eviction. *)
Definition sd_add_item (item : MempoolItem) (d : SortedDict) : SortedDict :=
  match sd_get (fee_per_cost item) d with
  | Some b => sd_set (fee_per_cost item) (dict_set (name item) item b) d
  | None => sd_set (fee_per_cost item) [(name item, item)] d
  end.

(** The pool the insertion part of [add_to_pool] leaves. *)
Definition inserted (item : MempoolItem) (additions_list : list Coin)
    (removals_dic : pydict bytes32 Coin) (m : Mempool) : Mempool :=
  mkMempool (header m)
            (<[name item := item]> (spends m))
            (sd_add_item item (sorted_spends m))
            (set_keys (coin_name <$> additions_list) item (additions m))
            (set_keys (dict_keys removals_dic) item (removals m))
            (min_fee m) (size m).

(** The eviction part of [add_to_pool]. *)
Definition evict : M unit :=
  full ← at_full_capacity;
  if full then
    kv ← peekitem0;
    to_remove ← first_value kv.2;
    remove_spend to_remove
  else ret tt.

(** The entry [add_to_pool] evicts from a full pool: the first value of the
    bucket under the least fee rate. *)
Definition victim (m : Mempool) : option MempoolItem :=
  match sorted_spends m with
  | (_, (_, v) :: _) :: _ => Some v
  | _ => None
  end.

(** Invariant behind the capacity bound.  The pool holds at most [c]
    entries, or (capacity below zero) it still is empty. *)
Definition within_capacity (c : Z) (m : Mempool) : Prop :=
  size m = c ∧
  (len (spends m) <= c ∨ (spends m = ∅ ∧ sorted_spends m = [])).

(** The bucket an insertion leaves under the fee rate of the entry. *)
Definition bucket_with (item : MempoolItem) (d : SortedDict) : Bucket :=
  match sd_get (fee_per_cost item) d with
  | Some b => dict_set (name item) item b
  | None => [(name item, item)]
  end.

(** What every [SortedDict] of plain [dict]s satisfies as a Python value:
    its keys are strictly ascending, hence unique, and so are the keys of
    each bucket. *)
Definition sd_wf (d : SortedDict) : Prop :=
  sd_sorted d ∧ Forall (λ kb : Qc * Bucket, NoDup (dict_keys kb.2)) d.

(** The entry filed under the id [k] in the bucket of the fee rate [f]. *)
Definition filed (d : SortedDict) (f : Qc) (k : bytes32) : option MempoolItem :=
  match sd_get f d with
  | Some b => dict_get k b
  | None => None
  end.

(** The bucket of the fee rate [f], as a list of entries; empty when [f] is
    not a key. *)
Definition bucket_of (f : Qc) (d : SortedDict) : list MempoolItem :=
  match sd_get f d with
  | Some b => dict_values b
  | None => []
  end.

(** The calls that admit the entries of [adds] one after the other, each
    with the coins passed along with it. *)
Definition add_calls
    (adds : list (MempoolItem * (list Coin * pydict bytes32 Coin))) : list call :=
  (λ a, AddToPool a.1 a.2.1 a.2.2) <$> adds.

(** ** Scenario data *)

Definition tip0 : Header := mkHeader 0%N.

(** An entry with the given id, integral fee rate, consumed and produced
    coin ids. *)
Definition entry (id : N) (rate : Z) (cons prod : list N) : MempoolItem :=
  mkMempoolItem (mkSpendBundle (mkCoin <$> cons) (mkCoin <$> prod))
                (Qc_of_Z rate) id.

(** The arguments a caller passes along with an entry. *)
Definition additions_of (item : MempoolItem) : list Coin :=
  sb_additions (spend_bundle item).
Definition removals_dic_of (item : MempoolItem) : pydict bytes32 Coin :=
  (λ c, (coin_name c, c)) <$> sb_removals (spend_bundle item).
Definition add_call (item : MempoolItem) : call :=
  AddToPool item (additions_of item) (removals_dic_of item).

Definition eX : MempoolItem := entry 1 5 [10%N] [11%N].
Definition eY : MempoolItem := entry 2 3 [20%N] [21%N].
Definition eZ : MempoolItem := entry 3 10 [30%N] [31%N].

(** Capacity 2 after admitting [eX], then [eY]. *)
Definition pool_X : Mempool := run [add_call eX] (create tip0 2).
Definition pool_XY : Mempool := run [add_call eX; add_call eY] (create tip0 2).
Definition pool_XZ : Mempool :=
  run [add_call eX; add_call eY; add_call eZ] (create tip0 2).

(** Two entries that consume the same coin 10. *)
Definition eC1 : MempoolItem := entry 1 5 [10%N] [11%N].
Definition eC2 : MempoolItem := entry 2 3 [10%N] [21%N].
Definition pool_C1 : Mempool := run [add_call eC1] (create tip0 2).
Definition pool_conflict : Mempool :=
  run [add_call eC1; add_call eC2] (create tip0 2).

(** Two entries with the same id 1 and different fee rates. *)
Definition eD1 : MempoolItem := entry 1 3 [] [].
Definition eD2 : MempoolItem := entry 1 5 [] [].
Definition pool_D1 : Mempool := run [add_call eD1] (create tip0 2).
Definition pool_dup : Mempool := run [add_call eD1; add_call eD2] (create tip0 2).

(** A third entry is admitted: [eC2], of least fee rate, is evicted and
    takes the coin 10 out of [removals] although [eC1] consumes it too. *)
Definition eC4 : MempoolItem := entry 4 20 [40%N] [41%N].
Definition pool_conflict3 : Mempool :=
  run [add_call eC1; add_call eC2; add_call eZ] (create tip0 2).

(** [eC1] is removed from the pool of the two conflicting entries. *)
Definition pool_orphan : Mempool :=
  run [add_call eC1; add_call eC2; RemoveSpend eC1] (create tip0 2).

(** Capacity 1, [eX] admitted without its coins being passed along. *)
Definition pool_nocoins : Mempool :=
  run [AddToPool eX [] []] (create tip0 1).

(** A pool of capacity 1 holding one entry of fee rate 7. *)
Definition e7 : MempoolItem := entry 1 7 [10%N] [11%N].
Definition pool_7 : Mempool := run [add_call e7] (create tip0 1).

(** ** Tactics for concrete pools *)

Ltac by_eval := vm_compute; reflexivity.

Ltac in_list H :=
  repeat (apply elem_of_cons in H as [->|H]; [by_eval|]);
  by apply elem_of_nil in H.

Ltac concrete_pre :=
  lazymatch goal with
  | |- admit_pre_no_conflict _ _ _ _ =>
      split; [concrete_pre|split; intros ? Hin; in_list Hin]
  | |- admit_pre _ _ _ _ =>
      split; [by_eval|];
      split; [apply (bool_decide_unpack _); vm_compute; exact I|];
      split; [apply (bool_decide_unpack _); vm_compute; exact I|];
      split; intros ?; reflexivity
  end.

(** A completed, contract-respecting [add_to_pool] of [item] with its own
    coins, between two concrete pools. *)
Ltac concrete_add m item :=
  apply (steps_add _ _ m item (additions_of item) (removals_dic_of item));
  [|concrete_pre|by_eval].

(** ** Python dictionaries *)

Section pydict_facts.
Context {K V : Type} `{EqDecision K}.
Implicit Types (d : pydict K V) (k : K) (v : V).

Lemma dict_get_set k k' v d :
  dict_get k' (dict_set k v d) = if decide (k = k') then Some v else dict_get k' d.
Proof.
  induction d as [|[k0 v0] d IH]; simpl.
  - repeat case_decide; congruence.
  - repeat (case_decide; simpl); congruence.
Qed.

Lemma dict_get_None k d : dict_get k d = None ↔ k ∉ dict_keys d.
Proof.
  unfold dict_keys. induction d as [|[k0 v0] d IH]; simpl.
  - split; [intros _; apply not_elem_of_nil|done].
  - rewrite not_elem_of_cons. case_decide; naive_solver.
Qed.

Lemma dict_get_is_Some k d : is_Some (dict_get k d) ↔ k ∈ dict_keys d.
Proof.
  rewrite <-not_eq_None_Some, dict_get_None.
  destruct (decide (k ∈ dict_keys d)); naive_solver.
Qed.

Lemma dict_keys_del k d x :
  x ∈ dict_keys (dict_del k d) → x ∈ dict_keys d.
Proof.
  unfold dict_keys. induction d as [|[k0 v0] d IH]; simpl; [done|].
  case_decide; simpl; rewrite !elem_of_cons; naive_solver.
Qed.

Lemma dict_del_NoDup k d : NoDup (dict_keys d) → NoDup (dict_keys (dict_del k d)).
Proof.
  unfold dict_keys. induction d as [|[k0 v0] d IH]; simpl; [done|].
  rewrite NoDup_cons. intros [Hk0 Hd]. case_decide; simpl; [done|].
  apply NoDup_cons. split; [|auto].
  intros Hin. apply Hk0. by apply (dict_keys_del k).
Qed.

Lemma dict_get_del k k' d :
  NoDup (dict_keys d) →
  dict_get k' (dict_del k d) = if decide (k = k') then None else dict_get k' d.
Proof.
  unfold dict_keys. induction d as [|[k0 v0] d IH]; simpl.
  - by case_decide.
  - rewrite NoDup_cons. intros [Hk0 Hd].
    destruct (decide (k0 = k)) as [->|Hne]; simpl.
    + destruct (decide (k = k')) as [->|]; [|done].
      by apply dict_get_None.
    + rewrite IH by done. repeat case_decide; congruence.
Qed.

Lemma dict_keys_set k v d x :
  x ∈ dict_keys (dict_set k v d) ↔ x = k ∨ x ∈ dict_keys d.
Proof.
  unfold dict_keys. induction d as [|[k0 v0] d IH]; simpl.
  - rewrite list_elem_of_singleton, elem_of_nil. naive_solver.
  - case_decide; simpl; rewrite !elem_of_cons; naive_solver.
Qed.

Lemma dict_set_NoDup k v d : NoDup (dict_keys d) → NoDup (dict_keys (dict_set k v d)).
Proof.
  unfold dict_keys. induction d as [|[k0 v0] d IH]; simpl.
  - intros _. apply NoDup_singleton.
  - rewrite NoDup_cons. intros [Hk0 Hd]. case_decide; simpl.
    + subst. by apply NoDup_cons.
    + apply NoDup_cons. split; [|auto].
      intros Hin. apply (dict_keys_set k v d k0) in Hin. naive_solver.
Qed.

Lemma dict_set_not_nil k v d : dict_set k v d ≠ [].
Proof. destruct d as [|[k0 v0] d]; simpl; [done|]. by case_decide. Qed.

Lemma dict_values_length d : length (dict_values d) = length d.
Proof. unfold dict_values. by rewrite length_fmap. Qed.
End pydict_facts.

(** ** Sorted dictionaries *)

Lemma Qccompare_Eq (p q : Qc) : (p ?= q)%Qc = Eq ↔ p = q.
Proof. symmetry. apply Qceq_alt. Qed.

Lemma Qccompare_refl (p : Qc) : (p ?= p)%Qc = Eq.
Proof. by apply Qccompare_Eq. Qed.

Lemma Qccompare_Lt (p q : Qc) : (p ?= q)%Qc = Lt ↔ (p < q)%Qc.
Proof. symmetry. apply Qclt_alt. Qed.

Lemma Qccompare_Gt (p q : Qc) : (p ?= q)%Qc = Gt ↔ (q < p)%Qc.
Proof. symmetry. apply Qcgt_alt. Qed.

Lemma Qclt_ne (p q : Qc) : (p < q)%Qc → p ≠ q.
Proof. intros Hlt ->. by apply (Qclt_not_eq q q). Qed.

Lemma sd_get_set k k' b d :
  sd_get k' (sd_set k b d) = if decide (k = k') then Some b else sd_get k' d.
Proof.
  induction d as [|[k0 b0] d IH]; simpl.
  - case_decide as Hk.
    + subst. by rewrite Qccompare_refl.
    + destruct (k' ?= k)%Qc eqn:Hc; try done.
      apply Qccompare_Eq in Hc. congruence.
  - destruct (k ?= k0)%Qc eqn:Hc; simpl.
    + apply Qccompare_Eq in Hc. subst k0.
      case_decide as Hk.
      * subst. by rewrite Qccompare_refl.
      * destruct (k' ?= k)%Qc eqn:Hc'; try done.
        apply Qccompare_Eq in Hc'. congruence.
    + case_decide as Hk.
      * subst. by rewrite Qccompare_refl.
      * destruct (k' ?= k)%Qc eqn:Hc'; try done.
        apply Qccompare_Eq in Hc'. congruence.
    + rewrite IH. case_decide as Hk; [|done].
      subst k'. rewrite Hc. done.
Qed.

Lemma sd_get_Some_elem k b d : sd_get k d = Some b → (k, b) ∈ d.
Proof.
  induction d as [|[k0 b0] d IH]; simpl; [done|].
  destruct (k ?= k0)%Qc eqn:Hc.
  - apply Qccompare_Eq in Hc. intros [= ->]. subst. left.
  - intros. right. auto.
  - intros. right. auto.
Qed.

Lemma sd_get_None k d : sd_get k d = None ↔ k ∉ d.*1.
Proof.
  induction d as [|[k0 b0] d IH]; simpl.
  - split; [intros _; apply not_elem_of_nil|done].
  - rewrite not_elem_of_cons. destruct (k ?= k0)%Qc eqn:Hc.
    + apply Qccompare_Eq in Hc. naive_solver.
    + apply Qccompare_Lt, Qclt_ne in Hc. naive_solver.
    + apply Qccompare_Gt, Qclt_ne in Hc. naive_solver.
Qed.

Lemma sd_sorted_cons k b d :
  sd_sorted ((k, b) :: d) ↔ sd_sorted d ∧ Forall (Qclt k) d.*1.
Proof.
  unfold sd_sorted. simpl. split.
  - intros H. by apply StronglySorted_inv in H.
  - intros [??]. by constructor.
Qed.

Lemma sd_elem_get k b d : sd_sorted d → (k, b) ∈ d → sd_get k d = Some b.
Proof.
  induction d as [|[k0 b0] d IH]; simpl; [by rewrite elem_of_nil|].
  rewrite sd_sorted_cons, elem_of_cons. intros [Hs Hall] [[= -> ->]|Hin].
  - by rewrite Qccompare_refl.
  - assert (k0 < k)%Qc as Hlt.
    { rewrite Forall_forall in Hall. apply Hall.
      apply list_elem_of_fmap. by exists (k, b). }
    apply Qccompare_Gt in Hlt. rewrite Hlt. auto.
Qed.

Lemma sd_keys_set k b d x : x ∈ (sd_set k b d).*1 ↔ x = k ∨ x ∈ d.*1.
Proof.
  induction d as [|[k0 b0] d IH]; simpl.
  - rewrite list_elem_of_singleton, elem_of_nil. naive_solver.
  - destruct (k ?= k0)%Qc eqn:Hc; simpl; rewrite !elem_of_cons.
    + apply Qccompare_Eq in Hc. naive_solver.
    + naive_solver.
    + rewrite IH. naive_solver.
Qed.

Lemma sd_set_sorted k b d : sd_sorted d → sd_sorted (sd_set k b d).
Proof.
  induction d as [|[k0 b0] d IH]; simpl.
  - intros _. apply sd_sorted_cons. split; [constructor|constructor].
  - rewrite sd_sorted_cons. intros [Hs Hall].
    destruct (k ?= k0)%Qc eqn:Hc.
    + apply Qccompare_Eq in Hc. subst. by apply sd_sorted_cons.
    + apply Qccompare_Lt in Hc. apply sd_sorted_cons. split.
      * by apply sd_sorted_cons.
      * simpl. constructor; [done|].
        eapply Forall_impl; [exact Hall|]. intros x Hx. simpl in Hx.
        by eapply Qclt_trans.
    + apply Qccompare_Gt in Hc. apply sd_sorted_cons. split; [auto|].
      apply Forall_forall. intros x Hx. apply sd_keys_set in Hx.
      destruct Hx as [->|Hx]; [done|].
      rewrite Forall_forall in Hall. by apply Hall.
Qed.

Lemma sd_keys_del k d x : x ∈ (sd_del k d).*1 → x ∈ d.*1.
Proof.
  induction d as [|[k0 b0] d IH]; simpl; [done|].
  destruct (k ?= k0)%Qc; simpl; rewrite !elem_of_cons; naive_solver.
Qed.

Lemma sd_del_sorted k d : sd_sorted d → sd_sorted (sd_del k d).
Proof.
  induction d as [|[k0 b0] d IH]; simpl; [done|].
  rewrite sd_sorted_cons. intros [Hs Hall].
  assert (Forall (Qclt k0) (sd_del k d).*1) as Hall'.
  { apply Forall_forall. intros x Hx. rewrite Forall_forall in Hall.
    apply Hall. by apply (sd_keys_del k). }
  destruct (k ?= k0)%Qc; [done| |]; apply sd_sorted_cons; auto.
Qed.

Lemma sd_get_del k k' d :
  sd_sorted d →
  sd_get k' (sd_del k d) = if decide (k = k') then None else sd_get k' d.
Proof.
  induction d as [|[k0 b0] d IH]; simpl.
  - by case_decide.
  - rewrite sd_sorted_cons. intros [Hs Hall].
    destruct (k ?= k0)%Qc eqn:Hc; simpl.
    + apply Qccompare_Eq in Hc. subst k0.
      case_decide as Hk.
      * subst k'. apply sd_get_None. intros Hin.
        rewrite Forall_forall in Hall. apply Hall in Hin.
        by apply Qclt_ne in Hin.
      * destruct (k' ?= k)%Qc eqn:Hc'; try done.
        apply Qccompare_Eq in Hc'. congruence.
    + rewrite IH by done. case_decide as Hk; [|done].
      subst k'. by rewrite Hc.
    + rewrite IH by done. case_decide as Hk; [|done].
      subst k'. by rewrite Hc.
Qed.

Lemma sd_head_min k b d k' :
  sd_sorted ((k, b) :: d) → k' ∈ ((k, b) :: d).*1 → (k ≤ k')%Qc.
Proof.
  rewrite sd_sorted_cons. simpl. rewrite elem_of_cons.
  intros [_ Hall] [->|Hin].
  - apply Qcle_refl.
  - apply Qclt_le_weak. rewrite Forall_forall in Hall.
    by apply Hall.
Qed.

Lemma sd_set_no_empty k b d :
  b ≠ [] → no_empty_bucket d → no_empty_bucket (sd_set k b d).
Proof.
  unfold no_empty_bucket. intros Hb.
  induction d as [|[k0 b0] d IH]; simpl.
  - by repeat constructor.
  - intros Hd. apply Forall_cons in Hd as [H0 Hd].
    destruct (k ?= k0)%Qc; repeat constructor; auto.
Qed.

(** Deleting the key right after storing under it undoes the store of an
    empty bucket. *)
Lemma sd_del_set_no_empty k b d :
  no_empty_bucket d → no_empty_bucket (sd_del k (sd_set k b d)).
Proof.
  unfold no_empty_bucket. induction d as [|[k0 b0] d IH]; simpl.
  - by rewrite Qccompare_refl.
  - intros Hd. apply Forall_cons in Hd as [H0 Hd].
    destruct (k ?= k0)%Qc eqn:Hc; simpl.
    + by rewrite Qccompare_refl.
    + by rewrite Qccompare_refl; constructor.
    + rewrite Hc. constructor; auto.
Qed.

(** ** Loops over the coin indices *)

Lemma del_keys_lookup ks (d : gmap bytes32 MempoolItem) c :
  del_keys ks d !! c = if decide (c ∈ ks) then None else d !! c.
Proof.
  unfold del_keys. revert d. induction ks as [|k ks IH]; intros d; cbn [foldl].
  - destruct (decide (c ∈ [])) as [H|_]; [by apply elem_of_nil in H|done].
  - rewrite IH. destruct (decide (c = k)) as [->|Hne].
    + rewrite lookup_delete_eq.
      destruct (decide (k ∈ ks)); [|by rewrite decide_True by left].
      by rewrite decide_True by left.
    + rewrite lookup_delete_ne by done.
      destruct (decide (c ∈ ks)) as [Hin|Hin].
      * by rewrite decide_True by (by right).
      * rewrite decide_False; [done|].
        rewrite elem_of_cons. naive_solver.
Qed.

Lemma set_keys_lookup ks it (d : gmap bytes32 MempoolItem) c :
  set_keys ks it d !! c = if decide (c ∈ ks) then Some it else d !! c.
Proof.
  unfold set_keys. revert d. induction ks as [|k ks IH]; intros d; cbn [foldl].
  - destruct (decide (c ∈ [])) as [H|_]; [by apply elem_of_nil in H|done].
  - rewrite IH. destruct (decide (c = k)) as [->|Hne].
    + rewrite lookup_insert_eq.
      destruct (decide (k ∈ ks)); [|by rewrite decide_True by left].
      by rewrite decide_True by left.
    + rewrite lookup_insert_ne by done.
      destruct (decide (c ∈ ks)) as [Hin|Hin].
      * by rewrite decide_True by (by right).
      * rewrite decide_False; [done|].
        rewrite elem_of_cons. naive_solver.
Qed.

Lemma bind_Ok {A B} (c : M A) (f : A → M B) m a m' :
  c m = Ok a m' → bind c f m = f a m'.
Proof. unfold bind. by intros ->. Qed.

Lemma for_each_del_removals_inv (l : list Coin) m :
  match for_each l (λ rem, del_removals (coin_name rem)) m with
  | Ok _ m' => m' = set_removals (del_keys (coin_name <$> l) (removals m)) m
  | Raise e m' => e = KeyError ∧ ∃ R, m' = set_removals R m
  end.
Proof.
  revert m. induction l as [|c l IH]; intros m; simpl.
  - unfold ret. by destruct m.
  - unfold bind, del_removals at 1.
    destruct (removals m !! coin_name c).
    + specialize (IH (set_removals (delete (coin_name c) (removals m)) m)).
      destruct (for_each l _ _) as [[] m'|e m'].
      * by rewrite IH.
      * destruct IH as [-> [R ->]]. split; [done|]. by exists R.
    + split; [done|]. exists (removals m). by destruct m.
Qed.

Lemma for_each_del_removals_Ok (l : list Coin) m :
  NoDup (coin_name <$> l) →
  (∀ c, c ∈ coin_name <$> l → is_Some (removals m !! c)) →
  for_each l (λ rem, del_removals (coin_name rem)) m
  = Ok tt (set_removals (del_keys (coin_name <$> l) (removals m)) m).
Proof.
  revert m. induction l as [|c l IH]; intros m; simpl.
  - intros _ _. unfold ret. by destruct m.
  - rewrite NoDup_cons. intros [Hc Hl] Hin.
    unfold bind, del_removals at 1.
    destruct (Hin (coin_name c)) as [it ->]; [left|].
    rewrite IH; [done|done|].
    intros c' Hc'. simpl.
    rewrite lookup_delete_ne by (intros <-; by apply Hc).
    apply Hin. by right.
Qed.

Lemma for_each_del_additions_inv (l : list Coin) m :
  match for_each l (λ add, del_additions (coin_name add)) m with
  | Ok _ m' => m' = set_additions (del_keys (coin_name <$> l) (additions m)) m
  | Raise e m' => e = KeyError ∧ ∃ R, m' = set_additions R m
  end.
Proof.
  revert m. induction l as [|c l IH]; intros m; simpl.
  - unfold ret. by destruct m.
  - unfold bind, del_additions at 1.
    destruct (additions m !! coin_name c).
    + specialize (IH (set_additions (delete (coin_name c) (additions m)) m)).
      destruct (for_each l _ _) as [[] m'|e m'].
      * by rewrite IH.
      * destruct IH as [-> [R ->]]. split; [done|]. by exists R.
    + split; [done|]. exists (additions m). by destruct m.
Qed.

Lemma for_each_del_additions_Ok (l : list Coin) m :
  NoDup (coin_name <$> l) →
  (∀ c, c ∈ coin_name <$> l → is_Some (additions m !! c)) →
  for_each l (λ add, del_additions (coin_name add)) m
  = Ok tt (set_additions (del_keys (coin_name <$> l) (additions m)) m).
Proof.
  revert m. induction l as [|c l IH]; intros m; simpl.
  - intros _ _. unfold ret. by destruct m.
  - rewrite NoDup_cons. intros [Hc Hl] Hin.
    unfold bind, del_additions at 1.
    destruct (Hin (coin_name c)) as [it ->]; [left|].
    rewrite IH; [done|done|].
    intros c' Hc'. simpl.
    rewrite lookup_delete_ne by (intros <-; by apply Hc).
    apply Hin. by right.
Qed.

Lemma for_each_set_additions (l : list Coin) item m :
  for_each l (λ add,
    modify (λ m, set_additions (<[coin_name add := item]> (additions m)) m)) m
  = Ok tt (set_additions (set_keys (coin_name <$> l) item (additions m)) m).
Proof.
  revert m. induction l as [|c l IH]; intros m; simpl.
  - unfold ret. by destruct m.
  - unfold bind, modify at 1. by rewrite IH.
Qed.

Lemma for_each_set_removals (l : list bytes32) item m :
  for_each l (λ key,
    modify (λ m, set_removals (<[key := item]> (removals m)) m)) m
  = Ok tt (set_removals (set_keys l item (removals m)) m).
Proof.
  revert m. induction l as [|c l IH]; intros m; simpl.
  - unfold ret. by destruct m.
  - unfold bind, modify at 1. by rewrite IH.
Qed.

(** ** [remove_spend] *)

(** Every outcome of [remove_spend]: when it returns, the entry was in
    [spends] and in the bucket of its fee rate, and the pool is [removed];
    when it raises, it raises [KeyError] before touching [sorted_spends]. *)
Lemma remove_spend_inv item m :
  match remove_spend item m with
  | Ok _ m' =>
      ∃ b, sd_get (fee_per_cost item) (sorted_spends m) = Some b ∧
           is_Some (dict_get (name item) b) ∧
           is_Some (spends m !! name item) ∧
           m' = removed item b m
  | Raise e m' =>
      e = KeyError ∧ sorted_spends m' = sorted_spends m ∧
      size m' = size m ∧
      (spends m' = spends m ∨
       (is_Some (spends m !! name item) ∧
        spends m' = delete (name item) (spends m)))
  end.
Proof.
  unfold remove_spend. unfold bind at 1.
  pose proof (for_each_del_removals_inv (sb_removals (spend_bundle item)) m) as H1.
  destruct (for_each (sb_removals _) _ m) as [[] m1|e m1];
    [|destruct H1 as [-> [R ->]]; by auto].
  subst m1. unfold bind at 1.
  match goal with |- context [for_each (sb_additions _) _ ?m1] =>
    pose proof (for_each_del_additions_inv (sb_additions (spend_bundle item)) m1) as H2;
    destruct (for_each (sb_additions _) _ m1) as [[] m2|e m2]
  end; [|destruct H2 as [-> [R ->]]; simpl; by auto].
  subst m2. unfold bind at 1, del_spends at 1. simpl.
  destruct (spends m !! name item) as [it|] eqn:Hsp; [|by auto].
  unfold bind at 1, del_sorted_spends_item at 1, bind at 1,
    sorted_spends_getitem at 1. simpl.
  destruct (sd_get (fee_per_cost item) (sorted_spends m)) as [b|] eqn:Hb;
    [|by eauto 10].
  destruct (dict_get (name item) b) as [it'|] eqn:Hit; [|unfold raise; by eauto 10].
  unfold modify at 1. simpl.
  unfold bind at 1, sorted_spends_getitem at 1. simpl.
  rewrite sd_get_set, decide_True by done.
  case_bool_decide.
  - unfold del_sorted_spends. simpl.
    rewrite sd_get_set, decide_True by done.
    exists b. split; [done|]. split; [by eauto|]. split; [by eauto|].
    unfold removed, sd_remove_item, consumed, produced.
    by rewrite bool_decide_true.
  - unfold ret. exists b. split; [done|]. split; [by eauto|]. split; [by eauto|].
    unfold removed, sd_remove_item, consumed, produced.
    by rewrite bool_decide_false.
Qed.

(** [remove_spend] returns on an entry that is in [spends], in the bucket
    of its fee rate, and whose coins are all in the coin indices. *)
Lemma remove_spend_Ok item m b :
  NoDup (consumed item) →
  (∀ c, c ∈ consumed item → is_Some (removals m !! c)) →
  NoDup (produced item) →
  (∀ c, c ∈ produced item → is_Some (additions m !! c)) →
  is_Some (spends m !! name item) →
  sd_get (fee_per_cost item) (sorted_spends m) = Some b →
  is_Some (dict_get (name item) b) →
  remove_spend item m = Ok tt (removed item b m).
Proof.
  intros Hnr Hr Hna Ha [it Hsp] Hb [it' Hit].
  unfold remove_spend.
  erewrite bind_Ok; [|by apply for_each_del_removals_Ok].
  erewrite bind_Ok; [|by apply for_each_del_additions_Ok].
  unfold bind at 1, del_spends at 1. simpl. rewrite Hsp.
  unfold bind at 1, del_sorted_spends_item at 1, bind at 1,
    sorted_spends_getitem at 1. simpl. rewrite Hb, Hit.
  unfold modify at 1. simpl.
  unfold bind at 1, sorted_spends_getitem at 1. simpl.
  rewrite sd_get_set, decide_True by done.
  unfold removed, sd_remove_item, consumed, produced.
  case_bool_decide.
  - unfold del_sorted_spends. simpl.
    by rewrite sd_get_set, decide_True.
  - done.
Qed.

(** ** [add_to_pool] *)

Lemma evict_eq m :
  evict m =
  if bool_decide (size m <= len (spends m)) then
    match victim m with
    | Some v => remove_spend v m
    | None => Raise IndexError m
    end
  else Ok tt m.
Proof.
  unfold evict, bind at 1, at_full_capacity. case_bool_decide; [|done].
  unfold bind at 1, peekitem0, victim.
  destruct (sorted_spends m) as [|[f [|[k v] b]] d]; try done.
Qed.

Lemma sd_set_set k b b' d : sd_set k b (sd_set k b' d) = sd_set k b d.
Proof.
  induction d as [|[k0 b0] d IH]; simpl.
  - by rewrite Qccompare_refl.
  - destruct (k ?= k0)%Qc eqn:Hc; simpl.
    + by rewrite Qccompare_refl.
    + by rewrite Qccompare_refl.
    + by rewrite Hc, IH.
Qed.

Lemma add_to_pool_eq item additions_list removals_dic m :
  add_to_pool item additions_list removals_dic m =
  match evict m with
  | Ok _ m1 => Ok tt (inserted item additions_list removals_dic m1)
  | Raise e m1 => Raise e m1
  end.
Proof.
  unfold add_to_pool. fold evict. unfold bind at 1.
  destruct (evict m) as [[] m1|e m1]; [|done].
  unfold bind at 1, modify at 1. unfold bind at 1, bind at 1, get at 1.
  simpl. unfold inserted, sd_add_item.
  destruct (sd_get (fee_per_cost item) (sorted_spends m1)) as [b|] eqn:Hb.
  - rewrite bool_decide_true by eauto.
    unfold sorted_spends_setitem_item, bind at 1, sorted_spends_getitem at 1.
    simpl. rewrite Hb. unfold modify at 1. simpl.
    unfold bind at 1. rewrite for_each_set_additions.
    rewrite for_each_set_removals. done.
  - rewrite bool_decide_false by (by intros [??]).
    unfold bind at 1, modify at 1.
    unfold sorted_spends_setitem_item, bind at 1, sorted_spends_getitem at 1.
    simpl. rewrite sd_get_set, decide_True by done. unfold modify at 1. simpl.
    rewrite sd_set_set.
    unfold bind at 1. rewrite for_each_set_additions.
    rewrite for_each_set_removals. done.
Qed.

(** ** The capacity bound *)

Lemma len_delete_Some k (s : gmap bytes32 MempoolItem) :
  is_Some (s !! k) → len (delete k s) = len s - 1.
Proof.
  intros [it Hit]. unfold len.
  rewrite <-(insert_delete_id s k it Hit) at 2.
  rewrite map_size_insert_None by apply lookup_delete_eq. lia.
Qed.

Lemma len_delete_le k (s : gmap bytes32 MempoolItem) : len (delete k s) <= len s.
Proof.
  unfold len. rewrite map_size_delete. destruct (s !! k); simpl; lia.
Qed.

Lemma len_insert_le k it (s : gmap bytes32 MempoolItem) :
  len (<[k := it]> s) <= len s + 1.
Proof.
  unfold len. rewrite map_size_insert. destruct (s !! k); simpl; lia.
Qed.

Lemma remove_spend_Raise_len item m e m' :
  remove_spend item m = Raise e m' →
  size m' = size m ∧ sorted_spends m' = sorted_spends m ∧
  len (spends m') <= len (spends m) ∧ (spends m = ∅ → spends m' = ∅).
Proof.
  intros H. pose proof (remove_spend_inv item m) as Hinv. rewrite H in Hinv.
  destruct Hinv as (_ & Hs & Hsz & [->| [_ ->]]).
  - repeat split; auto. lia.
  - repeat split; auto using len_delete_le.
    intros ->. apply delete_empty.
Qed.

Lemma victim_Some_sorted m v : victim m = Some v → sorted_spends m ≠ [].
Proof. unfold victim. by destruct (sorted_spends m). Qed.

(** A completed call leaves at most [c] entries. *)
Lemma exec_Ok_within c call m m' :
  within_capacity c m → exec call m = Ok tt m' →
  size m' = c ∧ len (spends m') <= c.
Proof.
  intros [Hsz HJ] Hex. destruct call as [item al rd|item]; simpl in Hex.
  - rewrite add_to_pool_eq, evict_eq in Hex.
    case_bool_decide as Hfull.
    + destruct (victim m) as [v|] eqn:Hv; [|done].
      destruct (remove_spend v m) as [[] m1|e m1] eqn:Hrm; [|done].
      injection Hex as <-. simpl.
      pose proof (remove_spend_inv v m) as Hinv. rewrite Hrm in Hinv.
      destruct Hinv as (b & _ & _ & [it Hsp] & ->). simpl.
      split; [done|].
      destruct HJ as [Hle|[He _]]; [|by rewrite He, lookup_empty in Hsp].
      pose proof (len_insert_le (name item) item (delete (name v) (spends m))).
      rewrite len_delete_Some in H by eauto. lia.
    + injection Hex as <-. simpl. split; [done|].
      pose proof (len_insert_le (name item) item (spends m)). lia.
  - pose proof (remove_spend_inv item m) as Hinv. rewrite Hex in Hinv.
    destruct Hinv as (b & _ & _ & [it Hsp] & ->). simpl. split; [done|].
    destruct HJ as [Hle|[He _]]; [|by rewrite He, lookup_empty in Hsp].
    rewrite len_delete_Some by eauto. lia.
Qed.

(** Every call, completed or not, preserves the invariant. *)
Lemma exec_within c call m :
  within_capacity c m → within_capacity c (state_of (exec call m)).
Proof.
  intros HJ. destruct (exec call m) as [[] m'|e m'] eqn:Hex; simpl.
  - destruct (exec_Ok_within c call m m' HJ Hex). split; auto.
  - destruct HJ as [Hsz HJ]. destruct call as [item al rd|item]; simpl in Hex.
    + rewrite add_to_pool_eq, evict_eq in Hex.
      case_bool_decide as Hfull; [|done].
      destruct (victim m) as [v|] eqn:Hv; [|by injection Hex as <- <-].
      destruct (remove_spend v m) as [[] m1|e1 m1] eqn:Hrm; [done|].
      injection Hex as <- <-.
      apply remove_spend_Raise_len in Hrm as (Hsz' & Hs & Hle & He).
      split; [congruence|].
      destruct HJ as [?|[? Hnil]]; [left; lia|].
      by apply victim_Some_sorted in Hv.
    + apply remove_spend_Raise_len in Hex as (Hsz' & Hs & Hle & He).
      split; [congruence|].
      destruct HJ as [?|[? Hnil]]; [left; lia|].
      right. split; [auto|congruence].
Qed.

Lemma create_within tip c : within_capacity c (create tip c).
Proof. split; [done|]. by right. Qed.

Lemma run_within c cs m : within_capacity c m → within_capacity c (run cs m).
Proof.
  revert m. induction cs as [|call cs IH]; intros m HJ; simpl; [done|].
  by apply IH, exec_within.
Qed.

(** C2. Capacity invariant: take any sequence [cs] of [add_to_pool] and
    [remove_spend] calls on a pool created with capacity [c], whether or
    not the calls respect the contract and whether they return or raise;
    after any further call that completes, [spends] holds at most [c]
    entries. *)
Theorem capacity_invariant tip c cs call m' :
  exec call (run cs (create tip c)) = Ok tt m' →
  len (spends m') <= c.
Proof.
  intros Hex.
  eapply exec_Ok_within; [|exact Hex].
  apply run_within, create_within.
Qed.

(** ** Lookups in [sorted_spends] after a removal and after an insertion *)

Lemma list_length_0_nil {A} (l : list A) : length l = 0%nat ↔ l = [].
Proof. destruct l; simpl; split; (done || lia). Qed.

Lemma sd_get_remove_item f k b d f' :
  sd_sorted d →
  sd_get f' (sd_remove_item f k b d) =
  if decide (f = f') then
    if decide (dict_del k b = []) then None else Some (dict_del k b)
  else sd_get f' d.
Proof.
  intros Hs. unfold sd_remove_item. rewrite dict_values_length.
  case_bool_decide as Hlen; rewrite list_length_0_nil in Hlen.
  - rewrite sd_get_del by by apply sd_set_sorted.
    case_decide; [by rewrite decide_True|].
    by rewrite sd_get_set, decide_False.
  - rewrite sd_get_set. case_decide; [by rewrite decide_False|done].
Qed.

Lemma sd_remove_item_sorted f k b d :
  sd_sorted d → sd_sorted (sd_remove_item f k b d).
Proof.
  intros Hs. unfold sd_remove_item.
  case_bool_decide; auto using sd_set_sorted, sd_del_sorted.
Qed.

Lemma sd_remove_item_no_empty f k b d :
  no_empty_bucket d → no_empty_bucket (sd_remove_item f k b d).
Proof.
  intros Hs. unfold sd_remove_item. rewrite dict_values_length.
  case_bool_decide as Hlen; rewrite list_length_0_nil in Hlen.
  - by apply sd_del_set_no_empty.
  - by apply sd_set_no_empty.
Qed.

Lemma sd_add_item_eq item d :
  sd_add_item item d = sd_set (fee_per_cost item) (bucket_with item d) d.
Proof. unfold sd_add_item, bucket_with. by destruct (sd_get _ d). Qed.

Lemma sd_get_add_item item d f' :
  sd_get f' (sd_add_item item d) =
  if decide (fee_per_cost item = f') then Some (bucket_with item d)
  else sd_get f' d.
Proof. by rewrite sd_add_item_eq, sd_get_set. Qed.

Lemma bucket_with_not_nil item d : bucket_with item d ≠ [].
Proof.
  unfold bucket_with. destruct (sd_get _ d); [apply dict_set_not_nil|done].
Qed.

Lemma sd_add_item_sorted item d : sd_sorted d → sd_sorted (sd_add_item item d).
Proof. rewrite sd_add_item_eq. apply sd_set_sorted. Qed.

Lemma sd_add_item_no_empty item d :
  no_empty_bucket d → no_empty_bucket (sd_add_item item d).
Proof.
  rewrite sd_add_item_eq. apply sd_set_no_empty, bucket_with_not_nil.
Qed.

Lemma dict_get_bucket_with item d k :
  dict_get k (bucket_with item d) =
  if decide (name item = k) then Some item
  else match sd_get (fee_per_cost item) d with
       | Some b => dict_get k b
       | None => None
       end.
Proof.
  unfold bucket_with. destruct (sd_get _ d) as [b|].
  - apply dict_get_set.
  - simpl. by repeat case_decide.
Qed.

Lemma bucket_with_NoDup item d :
  (∀ b, sd_get (fee_per_cost item) d = Some b → NoDup (dict_keys b)) →
  NoDup (dict_keys (bucket_with item d)).
Proof.
  intros H. unfold bucket_with. destruct (sd_get _ d) as [b|].
  - apply dict_set_NoDup. auto.
  - apply NoDup_singleton.
Qed.

(** ** No empty bucket, whatever the calls *)

Lemma exec_no_empty call m :
  no_empty_bucket (sorted_spends m) →
  no_empty_bucket (sorted_spends (state_of (exec call m))).
Proof.
  intros Hne.
  assert (∀ item, no_empty_bucket
            (sorted_spends (state_of (remove_spend item m)))) as Hrm.
  { intros item. pose proof (remove_spend_inv item m) as Hinv.
    destruct (remove_spend item m) as [[] m'|e m']; simpl.
    - destruct Hinv as (b & _ & _ & _ & ->). simpl.
      by apply sd_remove_item_no_empty.
    - destruct Hinv as (_ & -> & _). done. }
  destruct call as [item al rd|item]; simpl; [|apply Hrm].
  rewrite add_to_pool_eq, evict_eq.
  case_bool_decide.
  - destruct (victim m) as [v|]; [|done].
    specialize (Hrm v).
    destruct (remove_spend v m) as [[] m'|e m']; simpl in *; [|done].
    by apply sd_add_item_no_empty.
  - simpl. by apply sd_add_item_no_empty.
Qed.

Lemma steps_no_empty pre m0 m :
  no_empty_bucket (sorted_spends m0) → steps pre m0 m →
  no_empty_bucket (sorted_spends m).
Proof.
  intros H0. induction 1 as [|m item al rd m' _ IH _ Hadd|m item m' _ IH _ Hrm].
  - done.
  - pose proof (exec_no_empty (AddToPool item al rd) m IH) as H.
    simpl in H. by rewrite Hadd in H.
  - pose proof (exec_no_empty (RemoveSpend item) m IH) as H.
    simpl in H. by rewrite Hrm in H.
Qed.

(** ** The index invariant is preserved *)

Lemma create_coherent_ids tip c : coherent_ids (create tip c).
Proof.
  split; simpl; try done.
  - constructor.
  - constructor.
Qed.

Lemma create_coherent tip c : coherent (create tip c).
Proof. split; [apply create_coherent_ids|done..]. Qed.

Lemma dict_get_Some_not_nil {K V} `{EqDecision K} (k : K) (v : V) d :
  dict_get k d = Some v → d ≠ [].
Proof. by destruct d. Qed.

(** Removing an admitted entry preserves the invariant. *)
Lemma removed_coherent_ids e b m :
  coherent_ids m →
  spends m !! name e = Some e →
  sd_get (fee_per_cost e) (sorted_spends m) = Some b →
  coherent_ids (removed e b m).
Proof.
  intros Hm He Hb.
  destruct (coh_bucket m Hm _ _ Hb) as [Hnd Hbe].
  split; simpl.
  - apply sd_remove_item_sorted, Hm.
  - apply sd_remove_item_no_empty, Hm.
  - intros f b1. rewrite sd_get_remove_item by apply Hm.
    case_decide as Hf.
    + case_decide; [done|]. intros [= <-]. subst f.
      split; [by apply dict_del_NoDup|].
      intros k it. rewrite dict_get_del by done.
      case_decide as Hk; [done|]. intros Hit.
      destruct (Hbe k it Hit) as (? & ? & ?).
      by rewrite lookup_delete_ne.
    + intros Hb1. destruct (coh_bucket m Hm _ _ Hb1) as [Hnd1 Hb1e].
      split; [done|]. intros k it Hit.
      destruct (Hb1e k it Hit) as (Hn & Hfee & Hsp).
      repeat split; try done.
      rewrite lookup_delete_ne; [done|].
      intros <-. rewrite He in Hsp. injection Hsp as <-. done.
  - intros k it. rewrite lookup_delete_Some. intros [Hk Hit].
    destruct (coh_spends m Hm k it Hit) as (Hn & b0 & Hb0 & Hg).
    split; [done|].
    rewrite sd_get_remove_item by apply Hm.
    case_decide as Hf.
    + rewrite <-Hf, Hb in Hb0. injection Hb0 as <-.
      assert (dict_get k (dict_del (name e) b) = Some it) as Hg'.
      { by rewrite dict_get_del, decide_False. }
      rewrite decide_False by (by eapply dict_get_Some_not_nil).
      eauto.
    + eauto.
Qed.

Lemma removed_coherent e b m :
  coherent m →
  spends m !! name e = Some e →
  sd_get (fee_per_cost e) (sorted_spends m) = Some b →
  coherent (removed e b m).
Proof.
  intros Hm He Hb.
  split; [by apply removed_coherent_ids; [apply Hm|..]|..]; simpl.
  - intros k it. rewrite lookup_delete_Some. intros [Hk Hit].
    destruct (coh_consumed m Hm k it Hit) as [Hnd' Hc].
    split; [done|]. intros c Hin.
    rewrite del_keys_lookup, decide_False; [auto|].
    intros Hin'. destruct (coh_consumed m Hm _ _ He) as [_ Hce].
    specialize (Hce c Hin'). rewrite (Hc c Hin) in Hce. injection Hce as ->.
    destruct (coh_spends m Hm k e Hit) as [Hn _]. by apply Hk.
  - intros k it. rewrite lookup_delete_Some. intros [Hk Hit].
    destruct (coh_produced m Hm k it Hit) as [Hnd' Hc].
    split; [done|]. intros c Hin.
    rewrite del_keys_lookup, decide_False; [auto|].
    intros Hin'. destruct (coh_produced m Hm _ _ He) as [_ Hce].
    specialize (Hce c Hin'). rewrite (Hc c Hin) in Hce. injection Hce as ->.
    destruct (coh_spends m Hm k e Hit) as [Hn _]. by apply Hk.
  - intros c it. rewrite del_keys_lookup. case_decide as Hin; [done|].
    intros Hc. destruct (coh_removals m Hm c it Hc) as [Hsp Hci].
    split; [|done]. rewrite lookup_delete_ne; [done|].
    intros Heq. rewrite Heq, Hsp in He. injection He as ->. done.
  - intros c it. rewrite del_keys_lookup. case_decide as Hin; [done|].
    intros Hc. destruct (coh_additions m Hm c it Hc) as [Hsp Hci].
    split; [|done]. rewrite lookup_delete_ne; [done|].
    intros Heq. rewrite Heq, Hsp in He. injection He as ->. done.
Qed.

(** Inserting an entry with a new id preserves the coherence of [spends]
    and [sorted_spends]. *)
Lemma inserted_coherent_ids item al rd m :
  coherent_ids m →
  spends m !! name item = None →
  coherent_ids (inserted item al rd m).
Proof.
  intros Hm Hfresh.
  split; simpl.
  - apply sd_add_item_sorted, Hm.
  - apply sd_add_item_no_empty, Hm.
  - intros f b1. rewrite sd_get_add_item. case_decide as Hf.
    + intros [= <-]. subst f. split.
      { apply bucket_with_NoDup. intros b Hb. by apply (coh_bucket m Hm _ _ Hb). }
      intros k it. rewrite dict_get_bucket_with. case_decide as Hk.
      * intros [= <-]. subst k. by rewrite lookup_insert_eq.
      * destruct (sd_get _ _) as [b|] eqn:Hb; [|done]. intros Hit.
        destruct (coh_bucket m Hm _ _ Hb) as [_ Hbe].
        destruct (Hbe k it Hit) as (? & ? & ?).
        by rewrite lookup_insert_ne.
    + intros Hb1. destruct (coh_bucket m Hm _ _ Hb1) as [Hnd1 Hb1e].
      split; [done|]. intros k it Hit.
      destruct (Hb1e k it Hit) as (Hn & Hfee & Hsp).
      repeat split; try done.
      rewrite lookup_insert_ne; [done|]. intros Heq. congruence.
  - intros k it. rewrite lookup_insert_Some. intros [[<- <-]|[Hk Hit]].
    + split; [done|]. exists (bucket_with item (sorted_spends m)).
      rewrite sd_get_add_item, decide_True by done.
      by rewrite dict_get_bucket_with, decide_True.
    + destruct (coh_spends m Hm k it Hit) as (Hn & b0 & Hb0 & Hg).
      split; [done|]. rewrite sd_get_add_item. case_decide as Hf.
      * eexists. split; [done|].
        rewrite dict_get_bucket_with, decide_False by done.
        by rewrite Hf, Hb0.
      * eauto.
Qed.

(** Inserting a new entry whose coins are not in the coin indices
    preserves the invariant. *)
Lemma inserted_coherent item al rd m :
  coherent m →
  admit_pre_no_conflict m item al rd →
  coherent (inserted item al rd m).
Proof.
  intros Hm [(Hfresh & Hndc & Hndp & Hal & Hrd) [Hnc Hnp]].
  split; [by apply inserted_coherent_ids; [apply Hm|]|..]; simpl.
  - intros k it. rewrite lookup_insert_Some. intros [[<- <-]|[Hk Hit]].
    + split; [done|]. intros c Hin.
      rewrite set_keys_lookup, decide_True; [done|]. by apply Hrd.
    + destruct (coh_consumed m Hm k it Hit) as [Hnd' Hc].
      split; [done|]. intros c Hin.
      rewrite set_keys_lookup, decide_False; [auto|].
      intros Hin'. apply Hrd, Hnc in Hin'. rewrite (Hc c Hin) in Hin'. done.
  - intros k it. rewrite lookup_insert_Some. intros [[<- <-]|[Hk Hit]].
    + split; [done|]. intros c Hin.
      rewrite set_keys_lookup, decide_True; [done|]. by apply Hal.
    + destruct (coh_produced m Hm k it Hit) as [Hnd' Hc].
      split; [done|]. intros c Hin.
      rewrite set_keys_lookup, decide_False; [auto|].
      intros Hin'. apply Hal, Hnp in Hin'. rewrite (Hc c Hin) in Hin'. done.
  - intros c it. rewrite set_keys_lookup. case_decide as Hin.
    + intros [= <-]. rewrite lookup_insert_eq. split; [done|]. by apply Hrd.
    + intros Hc. destruct (coh_removals m Hm c it Hc) as [Hsp Hci].
      split; [|done]. rewrite lookup_insert_ne; [done|]. congruence.
  - intros c it. rewrite set_keys_lookup. case_decide as Hin.
    + intros [= <-]. rewrite lookup_insert_eq. split; [done|]. by apply Hal.
    + intros Hc. destruct (coh_additions m Hm c it Hc) as [Hsp Hci].
      split; [|done]. rewrite lookup_insert_ne; [done|]. congruence.
Qed.

(** An admitted entry of a coherent pool can be removed. *)
Lemma coherent_remove_Ok m e :
  coherent m → spends m !! name e = Some e →
  ∃ b, sd_get (fee_per_cost e) (sorted_spends m) = Some b ∧
       dict_get (name e) b = Some e ∧
       remove_spend e m = Ok tt (removed e b m).
Proof.
  intros Hm He.
  destruct (coh_spends m Hm _ _ He) as (_ & b & Hb & Hg).
  destruct (coh_consumed m Hm _ _ He) as [Hndc Hc].
  destruct (coh_produced m Hm _ _ He) as [Hndp Hp].
  exists b. repeat split; try done.
  apply remove_spend_Ok; eauto.
Qed.

(** The entry chosen for eviction is admitted and has the least fee rate. *)
Lemma victim_coherent m v :
  coherent_ids m → victim m = Some v →
  spends m !! name v = Some v ∧
  (∃ b d, sorted_spends m = (fee_per_cost v, b) :: d) ∧
  ∀ k it, spends m !! k = Some it → (fee_per_cost v ≤ fee_per_cost it)%Qc.
Proof.
  intros Hm Hv. unfold victim in Hv.
  destruct (sorted_spends m) as [|[f [|[k0 v0] b]] d] eqn:Hd; try done.
  injection Hv as ->.
  assert (sd_get f (sorted_spends m) = Some ((k0, v) :: b)) as Hb.
  { rewrite Hd. simpl. by rewrite Qccompare_refl. }
  destruct (coh_bucket m Hm _ _ Hb) as [_ Hbe].
  destruct (Hbe k0 v) as (<- & <- & Hsp).
  { simpl. by rewrite decide_True. }
  split; [done|]. split; [by eauto|].
  intros k it Hit.
  destruct (coh_spends m Hm _ _ Hit) as (_ & b' & Hb' & _).
  apply sd_get_Some_elem in Hb'.
  eapply (sd_head_min _ ((name v, v) :: b) d).
  - rewrite <-Hd. apply Hm.
  - rewrite <-Hd. apply list_elem_of_fmap. by exists (fee_per_cost it, b').
Qed.

(** A full coherent pool of capacity at least one has an eviction
    candidate. *)
Lemma coherent_full_victim m :
  coherent_ids m → 1 <= size m → size m <= len (spends m) →
  ∃ v, victim m = Some v.
Proof.
  intros Hm H1 Hfull.
  assert (base.size (spends m) ≠ 0%nat) as Hne by (unfold len in Hfull; lia).
  apply map_size_ne_0_lookup in Hne as [k [it Hit]].
  destruct (coh_spends m Hm _ _ Hit) as (_ & b & Hb & Hg).
  unfold victim. pose proof (coh_no_empty m Hm) as Hnone.
  destruct (sorted_spends m) as [|[f b0] d]; [done|].
  apply Forall_cons in Hnone as [Hb0 _]. simpl in Hb0.
  destruct b0 as [|[k0 v0] b0]; [done|]. by eexists.
Qed.

(** [add_to_pool] on a coherent pool that is full, capacity at least one:
    the victim is removed, then the entry is inserted. *)
Lemma add_to_pool_full m item al rd :
  coherent m → 1 <= size m → size m <= len (spends m) →
  ∃ v b, victim m = Some v ∧
         sd_get (fee_per_cost v) (sorted_spends m) = Some b ∧
         add_to_pool item al rd m
         = Ok tt (inserted item al rd (removed v b m)).
Proof.
  intros Hm H1 Hfull.
  destruct (coherent_full_victim m Hm H1 Hfull) as [v Hv].
  destruct (victim_coherent m v Hm Hv) as (Hsp & _ & _).
  destruct (coherent_remove_Ok m v Hm Hsp) as (b & Hb & _ & Hrm).
  exists v, b. repeat split; try done.
  rewrite add_to_pool_eq, evict_eq, bool_decide_true by done.
  by rewrite Hv, Hrm.
Qed.

(** [add_to_pool] on a pool that is not full only inserts. *)
Lemma add_to_pool_not_full m item al rd :
  len (spends m) < size m →
  add_to_pool item al rd m = Ok tt (inserted item al rd m).
Proof.
  intros Hlt. rewrite add_to_pool_eq, evict_eq, bool_decide_false by lia. done.
Qed.

Lemma removed_pre e b m item al rd :
  admit_pre_no_conflict m item al rd →
  admit_pre_no_conflict (removed e b m) item al rd.
Proof.
  intros [(Hfresh & Hndc & Hndp & Hal & Hrd) [Hnc Hnp]].
  repeat split; simpl; try done; try apply Hal; try apply Hrd.
  - by rewrite lookup_delete_None; right.
  - intros c Hc. rewrite del_keys_lookup. case_decide; auto.
  - intros c Hc. rewrite del_keys_lookup. case_decide; auto.
Qed.

Lemma add_to_pool_coherent m item al rd m' :
  coherent m → admit_pre_no_conflict m item al rd →
  add_to_pool item al rd m = Ok tt m' → coherent m'.
Proof.
  intros Hm Hpre Hadd. rewrite add_to_pool_eq, evict_eq in Hadd.
  case_bool_decide as Hfull.
  - destruct (victim m) as [v|] eqn:Hv; [|done].
    destruct (victim_coherent m v Hm Hv) as (Hsp & _ & _).
    destruct (coherent_remove_Ok m v Hm Hsp) as (b & Hb & _ & Hrm).
    rewrite Hrm in Hadd. injection Hadd as <-.
    apply inserted_coherent; [by apply removed_coherent|by apply removed_pre].
  - injection Hadd as <-. by apply inserted_coherent.
Qed.

Lemma remove_spend_coherent m item m' :
  coherent m → spends m !! name item = Some item →
  remove_spend item m = Ok tt m' → coherent m'.
Proof.
  intros Hm Hsp Hrm.
  destruct (coherent_remove_Ok m item Hm Hsp) as (b & Hb & _ & Hrm').
  rewrite Hrm' in Hrm. injection Hrm as <-. by apply removed_coherent.
Qed.

(** The coherence of [spends] and [sorted_spends] needs no conflict
    resolution: it is kept by every completed call that admits a new id or
    removes an admitted entry. *)
Lemma add_to_pool_coherent_ids m item al rd m' :
  coherent_ids m → spends m !! name item = None →
  add_to_pool item al rd m = Ok tt m' → coherent_ids m'.
Proof.
  intros Hm Hfresh Hadd. rewrite add_to_pool_eq, evict_eq in Hadd.
  case_bool_decide as Hfull.
  - destruct (victim m) as [v|] eqn:Hv; [|done].
    destruct (victim_coherent m v Hm Hv) as (Hsp & _ & _).
    pose proof (remove_spend_inv v m) as Hinv.
    destruct (remove_spend v m) as [[] m1|e m1]; [|done].
    destruct Hinv as (b & Hb & _ & _ & ->). injection Hadd as <-.
    apply inserted_coherent_ids; [by apply removed_coherent_ids|].
    simpl. rewrite lookup_delete_None. by right.
  - injection Hadd as <-. by apply inserted_coherent_ids.
Qed.

Lemma remove_spend_coherent_ids m item m' :
  coherent_ids m → spends m !! name item = Some item →
  remove_spend item m = Ok tt m' → coherent_ids m'.
Proof.
  intros Hm Hsp Hrm. pose proof (remove_spend_inv item m) as Hinv.
  rewrite Hrm in Hinv. destruct Hinv as (b & Hb & _ & _ & ->).
  by apply removed_coherent_ids.
Qed.

Lemma steps_coherent_ids m0 m :
  coherent_ids m0 → steps admit_pre m0 m → coherent_ids m.
Proof.
  intros H0. induction 1 as [|m item al rd m' _ IH Hpre Hadd|m item m' _ IH Hsp Hrm].
  - done.
  - destruct Hpre as [Hfresh _]. by eapply add_to_pool_coherent_ids.
  - by eapply remove_spend_coherent_ids.
Qed.

Lemma steps_coherent m0 m :
  coherent m0 → steps admit_pre_no_conflict m0 m → coherent m.
Proof.
  intros H0. induction 1; eauto using add_to_pool_coherent, remove_spend_coherent.
Qed.

(** ** An admitted id is in one bucket, once *)

Lemma filter_key_length_0 (k : bytes32) (b : list (bytes32 * MempoolItem)) :
  k ∉ dict_keys b →
  length (filter (λ e : bytes32 * MempoolItem, e.1 = k) b) = 0%nat.
Proof.
  unfold dict_keys. induction b as [|[k0 v0] b IH]; [done|].
  rewrite fmap_cons, not_elem_of_cons. intros [Hne Hb].
  rewrite filter_cons. simpl in *. rewrite decide_False by congruence. auto.
Qed.

Lemma filter_key_length_1 (k : bytes32) (b : list (bytes32 * MempoolItem)) :
  NoDup (dict_keys b) → k ∈ dict_keys b →
  length (filter (λ e : bytes32 * MempoolItem, e.1 = k) b) = 1%nat.
Proof.
  unfold dict_keys. induction b as [|[k0 v0] b IH].
  - intros _ H. by apply elem_of_nil in H.
  - rewrite fmap_cons, NoDup_cons, elem_of_cons. intros [Hk0 Hnd] Hin.
    rewrite filter_cons. simpl.
    destruct (decide (k0 = k)) as [->|Hne].
    + simpl. by rewrite (filter_key_length_0 k b).
    + apply IH; [done|]. destruct Hin as [->|]; done.
Qed.

Lemma bucket_count_0 k d :
  (∀ f b, (f, b) ∈ d → k ∉ dict_keys b) → bucket_count k d = 0%nat.
Proof.
  unfold bucket_count. induction d as [|[f0 b0] d IH]; [done|].
  intros H. rewrite fmap_cons. cbn [snd sum_list sum_list_with].
  rewrite filter_key_length_0 by (apply (H f0); left).
  simpl. apply IH. intros f b Hin. apply (H f). by right.
Qed.

Lemma bucket_count_1 k f d :
  sd_sorted d →
  (∀ f' b', (f', b') ∈ d → NoDup (dict_keys b')) →
  (∀ f' b', (f', b') ∈ d → k ∈ dict_keys b' → f' = f) →
  (∃ b, (f, b) ∈ d ∧ k ∈ dict_keys b) →
  bucket_count k d = 1%nat.
Proof.
  unfold bucket_count. induction d as [|[f0 b0] d IH].
  - intros _ _ _ (b & Hin & _). by apply elem_of_nil in Hin.
  - rewrite sd_sorted_cons. intros [Hs Hall] Hnd Hf (b & Hin & Hk).
    rewrite fmap_cons. cbn [snd sum_list sum_list_with].
    destruct (decide (k ∈ dict_keys b0)) as [Hk0|Hk0].
    + rewrite filter_key_length_1; [|apply (Hnd f0); left|done].
      assert (f0 = f) as -> by (apply (Hf f0 b0); [left|done]).
      fold (bucket_count k d). rewrite bucket_count_0; [done|].
      intros f' b' Hin' Hk'.
      assert (f' = f) as -> by (apply (Hf f' b'); [by right|done]).
      rewrite Forall_forall in Hall.
      apply (Qclt_ne f f); [|done]. apply Hall.
      apply list_elem_of_fmap. by exists (f, b').
    + rewrite filter_key_length_0 by done. simpl. apply IH; try done.
      * intros f' b' Hin'. apply (Hnd f'). by right.
      * intros f' b' Hin'. apply (Hf f'). by right.
      * exists b. split; [|done].
        apply elem_of_cons in Hin as [[= -> ->]|Hin]; done.
Qed.

Lemma coherent_bucket_count_1 m k it :
  coherent_ids m → spends m !! k = Some it → bucket_count k (sorted_spends m) = 1%nat.
Proof.
  intros Hm Hit.
  destruct (coh_spends m Hm _ _ Hit) as (_ & b & Hb & Hg).
  apply (bucket_count_1 k (fee_per_cost it)).
  - apply Hm.
  - intros f' b' Hin. apply sd_elem_get in Hin; [|apply Hm].
    by apply (coh_bucket m Hm _ _ Hin).
  - intros f' b' Hin Hk. apply sd_elem_get in Hin; [|apply Hm].
    apply dict_get_is_Some in Hk as [it' Hit'].
    destruct (coh_bucket m Hm _ _ Hin) as [_ Hbe].
    destruct (Hbe _ _ Hit') as (_ & <- & Hsp). congruence.
  - exists b. split; [by apply sd_get_Some_elem|].
    apply dict_get_is_Some. eauto.
Qed.

Lemma coherent_bucket_count_0 m k :
  coherent_ids m → spends m !! k = None → bucket_count k (sorted_spends m) = 0%nat.
Proof.
  intros Hm Hk. apply bucket_count_0. intros f b Hin Hkb.
  apply sd_elem_get in Hin; [|apply Hm].
  apply dict_get_is_Some in Hkb as [it Hit].
  destruct (coh_bucket m Hm _ _ Hin) as [_ Hbe].
  destruct (Hbe _ _ Hit) as (_ & _ & Hsp). congruence.
Qed.

(** ** Scenarios A and D, by evaluation *)

Example scenario_A :
  spends pool_XY = {[1%N := eX; 2%N := eY]} ∧
  get_min_fee_rate pool_XY = Ok (Qc_of_Z 3) pool_XY ∧
  add_to_pool eZ (additions_of eZ) (removals_dic_of eZ) pool_XY = Ok tt pool_XZ ∧
  spends pool_XZ = {[1%N := eX; 3%N := eZ]} ∧
  removals pool_XZ !! 20%N = None ∧
  get_min_fee_rate pool_XZ = Ok (Qc_of_Z 5) pool_XZ.
Proof. split_and!; vm_compute; reflexivity. Qed.

Example scenario_D :
  get_min_fee_rate (run [add_call eX; add_call eY] (create tip0 5))
  = Ok 0%Qc (run [add_call eX; add_call eY] (create tip0 5)).
Proof. vm_compute; reflexivity. Qed.

(** ** C1: index coherence *)

(** States reached under the contract with conflict resolution are
    coherent. *)
Lemma reachable_coherent tip c m :
  steps admit_pre_no_conflict (create tip c) m → coherent m.
Proof. apply steps_coherent, create_coherent. Qed.

(** C1 (as amended). Index coherence: in every state reached from an empty
    pool by completed [add_to_pool] and [remove_spend] calls that respect
    the contract (no duplicate id admitted, the coins passed to
    [add_to_pool] are the entry's, only admitted entries removed) and in
    which no admitted entry's coin is already in [removals] or [additions]
    when it is admitted, the four indices are coherent: every id in
    [spends] is in exactly one bucket of [sorted_spends] exactly once (and
    ids not in [spends] are in none), every coin of [removals] and
    [additions] maps to an entry of [spends] that has this coin, and every
    coin of an admitted entry is in those maps and maps to that entry. *)
Theorem index_coherence tip c m :
  steps admit_pre_no_conflict (create tip c) m →
  coherent m ∧
  (∀ k it, spends m !! k = Some it →
           bucket_count k (sorted_spends m) = 1%nat) ∧
  (∀ k, spends m !! k = None → bucket_count k (sorted_spends m) = 0%nat).
Proof.
  intros Hsteps. pose proof (reachable_coherent tip c m Hsteps) as Hm.
  split; [done|]. split.
  - intros k it. apply coherent_bucket_count_1, Hm.
  - intros k. apply coherent_bucket_count_0, Hm.
Qed.

Lemma index_coherence_witness :
  coherent pool_XY ∧
  (∀ k it, spends pool_XY !! k = Some it →
           bucket_count k (sorted_spends pool_XY) = 1%nat) ∧
  (∀ k, spends pool_XY !! k = None →
        bucket_count k (sorted_spends pool_XY) = 0%nat).
Proof.
  apply (index_coherence tip0 2 pool_XY).
  concrete_add pool_X eY. concrete_add (create tip0 2) eX. apply steps_init.
Defined.

(** C1 as stated fails: without conflict resolution, two admitted entries
    may consume the same coin; [removals] then maps the coin to the later
    one only. *)
Lemma index_coherence_counterexample :
  steps admit_pre (create tip0 2) pool_conflict ∧
  spends pool_conflict !! name eC1 = Some eC1 ∧
  10%N ∈ consumed eC1 ∧
  removals pool_conflict !! 10%N = Some eC2 ∧
  removals pool_conflict !! 10%N ≠ Some eC1 ∧
  ¬ coherent pool_conflict.
Proof.
  assert (spends pool_conflict !! name eC1 = Some eC1) as Hsp by by_eval.
  assert (10%N ∈ consumed eC1) as Hin by (simpl; left).
  assert (removals pool_conflict !! 10%N ≠ Some eC1) as Hne
    by (vm_compute; discriminate).
  assert (removals pool_conflict !! 10%N = Some eC2) as Heq by by_eval.
  split_and!; try assumption.
  - concrete_add pool_C1 eC2. concrete_add (create tip0 2) eC1. apply steps_init.
  - intros Hm. destruct (coh_consumed _ Hm _ _ Hsp) as [_ Hc]. by apply Hne, Hc.
Qed.

(** ** C2: witness *)

Lemma capacity_invariant_witness : len (spends pool_XZ) <= 2.
Proof.
  apply (capacity_invariant tip0 2 [add_call eX; add_call eY] (add_call eZ)).
  by_eval.
Defined.

(** ** C3: the admission threshold *)

Lemma get_min_fee_rate_eq m :
  get_min_fee_rate m =
  if bool_decide (size m <= len (spends m)) then
    match sorted_spends m with
    | [] => Raise IndexError m
    | kv :: _ => Ok kv.1 m
    end
  else Ok 0%Qc m.
Proof.
  unfold get_min_fee_rate, bind at 1, at_full_capacity.
  case_bool_decide; [|done].
  unfold bind, peekitem0. by destruct (sorted_spends m).
Qed.

(** States reached under the contract as the specification states it
    have coherent [spends] and [sorted_spends]. *)
Lemma reachable_coherent_ids tip c m :
  steps admit_pre (create tip c) m → coherent_ids m.
Proof. apply steps_coherent_ids, create_coherent_ids. Qed.

(** C3 (as amended). Threshold correctness: in every pool state in which
    [spends] and [sorted_spends] are coherent (every state reached by
    completed calls that admit no duplicate id and remove only admitted
    entries is), [get_min_fee_rate] returns 0 whenever the number of
    admitted entries is strictly less than the capacity, and returns the
    least [fee_per_cost] among the admitted entries whenever their number
    equals the capacity and the capacity is at least 1; the call leaves the
    pool unchanged. *)
Theorem min_fee_rate_threshold m :
  coherent_ids m →
  (len (spends m) < size m → get_min_fee_rate m = Ok 0%Qc m) ∧
  (len (spends m) = size m → 1 <= size m →
   ∃ v, spends m !! name v = Some v ∧
        get_min_fee_rate m = Ok (fee_per_cost v) m ∧
        ∀ k it, spends m !! k = Some it →
                (fee_per_cost v ≤ fee_per_cost it)%Qc).
Proof.
  intros Hm. rewrite get_min_fee_rate_eq. split.
  - intros Hlt. by rewrite bool_decide_false by lia.
  - intros Heq H1. rewrite bool_decide_true by lia.
    destruct (coherent_full_victim m Hm H1) as [v Hv]; [lia|].
    destruct (victim_coherent m v Hm Hv) as (Hsp & (b & d & Hd) & Hmin).
    exists v. rewrite Hd. done.
Qed.

Lemma min_fee_rate_threshold_witness :
  get_min_fee_rate pool_X = Ok 0%Qc pool_X ∧
  ∃ v, spends pool_XY !! name v = Some v ∧
       get_min_fee_rate pool_XY = Ok (fee_per_cost v) pool_XY ∧
       ∀ k it, spends pool_XY !! k = Some it →
               (fee_per_cost v ≤ fee_per_cost it)%Qc.
Proof.
  split.
  - apply (min_fee_rate_threshold pool_X).
    + apply (reachable_coherent_ids tip0 2).
      concrete_add (create tip0 2) eX. apply steps_init.
    + vm_compute; reflexivity.
  - apply (min_fee_rate_threshold pool_XY).
    + apply (reachable_coherent_ids tip0 2).
      concrete_add pool_X eY. concrete_add (create tip0 2) eX. apply steps_init.
    + vm_compute; reflexivity.
    + vm_compute; discriminate.
Defined.

(** C3 as stated fails on the empty pool of capacity 0: the number of
    admitted entries equals the capacity and [get_min_fee_rate] raises. *)
Lemma min_fee_rate_counterexample :
  len (spends (create tip0 0)) = size (create tip0 0) ∧
  get_min_fee_rate (create tip0 0) = Raise IndexError (create tip0 0).
Proof. split; reflexivity. Qed.

(** ** C4: eviction *)

(** C4 (as amended). Eviction selects the minimum and evicts exactly one:
    on a full pool of capacity at least 1 that satisfies the index
    invariant (as every pool reached by contract-respecting calls does when
    the caller resolves conflicts), [add_to_pool] of a new entry completes.
    Exactly one admitted entry [v] is removed by the call, from all four
    indices: from [spends], from the bucket [b] of its fee rate in
    [sorted_spends], and its coins from [removals] and [additions].  Its
    fee rate is at most that of every entry admitted at the time of the
    call.  The new entry is inserted afterwards, and every other id is in
    [spends] and in the buckets exactly as before. *)
Theorem eviction_selects_minimum m item al rd :
  coherent m → 1 <= size m → size m <= len (spends m) →
  spends m !! name item = None →
  ∃ v b m',
    victim m = Some v ∧
    spends m !! name v = Some v ∧
    sd_get (fee_per_cost v) (sorted_spends m) = Some b ∧
    dict_get (name v) b = Some v ∧
    (∀ k it, spends m !! k = Some it →
             (fee_per_cost v ≤ fee_per_cost it)%Qc) ∧
    add_to_pool item al rd m = Ok tt m' ∧
    m' = inserted item al rd (removed v b m) ∧
    spends m' = <[name item := item]> (delete (name v) (spends m)) ∧
    spends m' !! name v = None ∧
    bucket_count (name v) (sorted_spends m') = 0%nat ∧
    (∀ f, filed (sorted_spends m') f (name v) = None) ∧
    (∀ c, c ∈ consumed v → c ∉ dict_keys rd → removals m' !! c = None) ∧
    (∀ c, c ∈ produced v → c ∉ coin_name <$> al → additions m' !! c = None) ∧
    spends m' !! name item = Some item ∧
    bucket_count (name item) (sorted_spends m') = 1%nat ∧
    filed (sorted_spends m') (fee_per_cost item) (name item) = Some item ∧
    (∀ k, k ≠ name v → k ≠ name item →
          spends m' !! k = spends m !! k ∧
          bucket_count k (sorted_spends m') = bucket_count k (sorted_spends m) ∧
          ∀ f, filed (sorted_spends m') f k = filed (sorted_spends m) f k) ∧
    len (spends m') = len (spends m).
Proof.
  intros Hm H1 Hfull Hfresh.
  destruct (add_to_pool_full m item al rd Hm H1 Hfull) as (v & b & Hv & Hb & Hadd).
  destruct (victim_coherent m v Hm Hv) as (Hsp & _ & Hmin).
  destruct (coh_spends m Hm _ _ Hsp) as (_ & b1 & Hb1 & Hg).
  rewrite Hb in Hb1. injection Hb1 as <-.
  destruct (coh_bucket m Hm _ _ Hb) as [Hnd _].
  set (m1 := removed v b m). set (m' := inserted item al rd m1).
  assert (name v ≠ name item) as Hne by congruence.
  assert (coherent_ids m1) as Hm1
    by (apply removed_coherent_ids; [apply Hm|done..]).
  assert (coherent_ids m') as Hm'.
  { apply inserted_coherent_ids; [done|]. simpl. by rewrite lookup_delete_ne. }
  assert (spends m' !! name v = None) as Hgone.
  { simpl. rewrite lookup_insert_ne by done. apply lookup_delete_eq. }
  assert (spends m' !! name item = Some item) as Hin
    by (simpl; apply lookup_insert_eq).
  assert (∀ k, k ≠ name v → k ≠ name item → spends m' !! k = spends m !! k)
    as Hother.
  { intros k ??. simpl. rewrite lookup_insert_ne by done.
    by apply lookup_delete_ne. }
  assert (∀ f k, k ≠ name item →
            filed (sorted_spends m') f k =
            if decide (k = name v) then None else filed (sorted_spends m) f k)
    as Hfiled.
  { intros f k Hk. unfold filed. simpl.
    rewrite sd_get_add_item. case_decide as Hf.
    - rewrite dict_get_bucket_with, decide_False by done. rewrite Hf.
      rewrite !sd_get_remove_item by apply Hm.
      case_decide as Hf'.
      + rewrite <-Hf', Hb. case_decide as Hnil.
        * pose proof (dict_get_del (name v) k b Hnd) as Hdel.
          rewrite Hnil in Hdel. simpl in Hdel.
          repeat case_decide; congruence.
        * rewrite dict_get_del by done. repeat case_decide; congruence.
      + case_decide as Hk'; [|done]. subst k.
        destruct (sd_get f (sorted_spends m)) as [b2|] eqn:Hb2; [|done].
        destruct (dict_get (name v) b2) as [it|] eqn:Hit; [|done].
        destruct (coh_bucket m Hm _ _ Hb2) as [_ Hbe].
        destruct (Hbe _ _ Hit) as (_ & Hfit & Hspit).
        rewrite Hsp in Hspit. injection Hspit as <-. congruence.
    - rewrite !sd_get_remove_item by apply Hm.
      case_decide as Hf'.
      + rewrite <-Hf', Hb. case_decide as Hnil.
        * pose proof (dict_get_del (name v) k b Hnd) as Hdel.
          rewrite Hnil in Hdel. simpl in Hdel.
          repeat case_decide; congruence.
        * rewrite dict_get_del by done. repeat case_decide; congruence.
      + case_decide as Hk'; [|done]. subst k.
        destruct (sd_get f (sorted_spends m)) as [b2|] eqn:Hb2; [|done].
        destruct (dict_get (name v) b2) as [it|] eqn:Hit; [|done].
        destruct (coh_bucket m Hm _ _ Hb2) as [_ Hbe].
        destruct (Hbe _ _ Hit) as (_ & Hfit & Hspit).
        rewrite Hsp in Hspit. injection Hspit as <-. congruence. }
  exists v, b, m'. split_and!; try done.
  - by apply coherent_bucket_count_0.
  - intros f. rewrite Hfiled by done. by rewrite decide_True.
  - intros c Hc Hrd. simpl. rewrite set_keys_lookup, decide_False by done.
    by rewrite del_keys_lookup, decide_True.
  - intros c Hc Hal. simpl. rewrite set_keys_lookup, decide_False by done.
    by rewrite del_keys_lookup, decide_True.
  - by eapply coherent_bucket_count_1.
  - unfold filed. simpl. rewrite sd_get_add_item, decide_True by done.
    by rewrite dict_get_bucket_with, decide_True.
  - intros k Hkv Hki. split_and!.
    + by apply Hother.
    + destruct (spends m !! k) as [it|] eqn:Hit.
      * rewrite (coherent_bucket_count_1 m k it) by (done || apply Hm).
        apply (coherent_bucket_count_1 m' k it); [done|].
        by rewrite Hother.
      * rewrite (coherent_bucket_count_0 m k) by (done || apply Hm).
        apply (coherent_bucket_count_0 m' k); [done|].
        by rewrite Hother.
    + intros f. rewrite Hfiled by done. by rewrite decide_False.
  - simpl. unfold len. rewrite map_size_insert_None
      by (rewrite lookup_delete_ne; done).
    pose proof (len_delete_Some (name v) (spends m) (ltac:(eauto))) as Hlen.
    unfold len in Hlen. lia.
Qed.

Lemma eviction_selects_minimum_witness :
  ∃ m',
    victim pool_XY = Some eY ∧
    add_to_pool eZ (additions_of eZ) (removals_dic_of eZ) pool_XY = Ok tt m' ∧
    spends m' = <[name eZ := eZ]> (delete (name eY) (spends pool_XY)) ∧
    bucket_count (name eY) (sorted_spends m') = 0%nat ∧
    removals m' !! 20%N = None ∧ additions m' !! 21%N = None ∧
    bucket_count (name eZ) (sorted_spends m') = 1%nat ∧
    len (spends m') = len (spends pool_XY).
Proof.
  destruct (eviction_selects_minimum pool_XY eZ (additions_of eZ)
              (removals_dic_of eZ))
    as (v & b & m' & Hv & _ & _ & _ & _ & Hadd & _ & Hsp & _ & Hcnt & _ & Hr
        & Ha & _ & Hcnt' & _ & _ & Hlen).
  - apply (reachable_coherent tip0 2).
    concrete_add pool_X eY. concrete_add (create tip0 2) eX. apply steps_init.
  - vm_compute. discriminate.
  - vm_compute. discriminate.
  - by_eval.
  - assert (victim pool_XY = Some eY) as HeY by reflexivity.
    rewrite HeY in Hv. injection Hv as <-.
    exists m'. split_and!; try assumption.
    + apply Hr; [simpl; left|].
      intros Hin. apply elem_of_cons in Hin as [Hin|Hin];
        [discriminate Hin|by apply elem_of_nil in Hin].
    + apply Ha; [simpl; left|].
      intros Hin. apply elem_of_cons in Hin as [Hin|Hin];
        [discriminate Hin|by apply elem_of_nil in Hin].
Defined.

(** C4 as stated fails: a full pool reached by calls that admit new ids
    with their own coins, where an earlier eviction took the coin 10 of the
    still admitted [eC1] out of [removals].  [add_to_pool] of a new entry
    picks [eC1] for eviction, raises [KeyError], and the new entry is not
    inserted. *)
Lemma eviction_selects_minimum_counterexample :
  steps admit_pre (create tip0 2) pool_conflict3 ∧
  1 <= size pool_conflict3 ∧
  size pool_conflict3 <= len (spends pool_conflict3) ∧
  admit_pre pool_conflict3 eC4 (additions_of eC4) (removals_dic_of eC4) ∧
  add_to_pool eC4 (additions_of eC4) (removals_dic_of eC4) pool_conflict3
  = Raise KeyError pool_conflict3 ∧
  spends pool_conflict3 !! name eC4 = None.
Proof.
  split_and!.
  - concrete_add pool_conflict eZ. concrete_add pool_C1 eC2.
    concrete_add (create tip0 2) eC1. apply steps_init.
  - vm_compute. discriminate.
  - vm_compute. discriminate.
  - concrete_pre.
  - by_eval.
  - by_eval.
Qed.

(** ** C5 and C6: what fails and how *)

(** [remove_spend] of an entry whose id is not in [spends] raises
    [KeyError]; [spends] and [sorted_spends] are as before. *)
Lemma remove_spend_absent m item :
  spends m !! name item = None →
  ∃ m', remove_spend item m = Raise KeyError m' ∧
        spends m' = spends m ∧ sorted_spends m' = sorted_spends m.
Proof.
  intros Hnone. pose proof (remove_spend_inv item m) as Hinv.
  destruct (remove_spend item m) as [[] m'|e m'].
  - destruct Hinv as (b & _ & _ & [it Hit] & _). congruence.
  - destruct Hinv as (-> & Hs & _ & [Hsp|[[it Hit] _]]); [|congruence].
    by exists m'.
Qed.

(** When moreover none of its coins is in the coin indices, the pool is
    left as it was. *)
Lemma remove_spend_absent_unchanged m item :
  spends m !! name item = None →
  (∀ c, c ∈ consumed item → removals m !! c = None) →
  (∀ c, c ∈ produced item → additions m !! c = None) →
  remove_spend item m = Raise KeyError m.
Proof.
  intros Hnone Hc Hp. unfold remove_spend, consumed, produced in *.
  destruct m as [hd sp ss ad rm mf sz]. simpl in *.
  destruct (sb_removals (spend_bundle item)) as [|r rl]; simpl.
  - destruct (sb_additions (spend_bundle item)) as [|a al]; simpl.
    + unfold bind at 1, ret at 1. unfold bind at 1, ret at 1.
      unfold bind at 1, del_spends at 1. simpl. by rewrite Hnone.
    + unfold bind at 1, ret at 1. unfold bind at 1, bind at 1, del_additions at 1.
      simpl. rewrite Hp; [done|]. simpl. left.
  - unfold bind at 1, bind at 1, del_removals at 1. simpl.
    rewrite Hc; [done|]. simpl. left.
Qed.

Lemma exec_create tip c call :
  c <= 0 → ∃ e, exec call (create tip c) = Raise e (create tip c).
Proof.
  intros Hc. destruct call as [item al rd|item]; simpl.
  - exists IndexError. rewrite add_to_pool_eq, evict_eq. simpl.
    rewrite bool_decide_true; [done|]. unfold len.
    rewrite map_size_empty. lia.
  - exists KeyError. apply remove_spend_absent_unchanged; intros; apply lookup_empty.
Qed.

Lemma run_create tip c cs : c <= 0 → run cs (create tip c) = create tip c.
Proof.
  intros Hc. induction cs as [|call cs IH]; simpl; [done|].
  destruct (exec_create tip c call Hc) as [e ->]. done.
Qed.

(** C5 (as amended). Capacity zero: on a pool created with capacity 0,
    [add_to_pool] does not complete.  The empty pool counts as full, the
    eviction peeks the least key of the empty [sorted_spends] and raises
    [IndexError] before any index is touched.  Whatever calls are made, the
    pool stays as created, so nothing is ever admitted. *)
Theorem capacity_zero tip :
  (∀ item al rd,
     add_to_pool item al rd (create tip 0) = Raise IndexError (create tip 0)) ∧
  (∀ cs, run cs (create tip 0) = create tip 0) ∧
  (∀ cs k, spends (run cs (create tip 0)) !! k = None).
Proof.
  split_and!.
  - intros item al rd. rewrite add_to_pool_eq, evict_eq. done.
  - intros cs. by apply run_create.
  - intros cs k. rewrite run_create by done. apply lookup_empty.
Qed.

(** C5 as stated fails: the first [add_to_pool] into the empty pool of
    capacity 0 raises. *)
Lemma capacity_zero_counterexample :
  add_to_pool eX (additions_of eX) (removals_dic_of eX) (create tip0 0)
  = Raise IndexError (create tip0 0).
Proof. reflexivity. Qed.

(** C6 (as amended). Contract violations: [remove_spend] of an entry whose
    id is not in [spends] fails loudly, it raises [KeyError] and leaves
    [spends] and [sorted_spends] as they were (and the whole pool, when
    none of the entry's coins is in [removals] or [additions]).
    [add_to_pool] has no duplicate check: on a pool that is not full it
    completes with an id that is already in [spends] and overwrites
    [spends[id]]. *)
Theorem contract_violations m item :
  (spends m !! name item = None →
   ∃ m', remove_spend item m = Raise KeyError m' ∧
         spends m' = spends m ∧ sorted_spends m' = sorted_spends m ∧
         ((∀ c, c ∈ consumed item → removals m !! c = None) →
          (∀ c, c ∈ produced item → additions m !! c = None) →
          m' = m)) ∧
  (∀ al rd, is_Some (spends m !! name item) → len (spends m) < size m →
     ∃ m', add_to_pool item al rd m = Ok tt m' ∧
           spends m' = <[name item := item]> (spends m)).
Proof.
  split.
  - intros Hnone.
    destruct (remove_spend_absent m item Hnone) as (m' & Hrm & Hsp & Hss).
    exists m'. split_and!; try done.
    intros Hc Hp.
    rewrite (remove_spend_absent_unchanged m item Hnone Hc Hp) in Hrm.
    congruence.
  - intros al rd _ Hlt. rewrite add_to_pool_not_full by done.
    by eexists.
Qed.

Lemma contract_violations_witness :
  (∃ m', remove_spend eY pool_X = Raise KeyError m' ∧
         spends m' = spends pool_X ∧ sorted_spends m' = sorted_spends pool_X ∧
         ((∀ c, c ∈ consumed eY → removals pool_X !! c = None) →
          (∀ c, c ∈ produced eY → additions pool_X !! c = None) →
          m' = pool_X)) ∧
  (∃ m', add_to_pool eD2 (additions_of eD2) (removals_dic_of eD2) pool_D1
         = Ok tt m' ∧
         spends m' = <[name eD2 := eD2]> (spends pool_D1)).
Proof.
  split.
  - apply (contract_violations pool_X eY). vm_compute; reflexivity.
  - apply (contract_violations pool_D1 eD2).
    + exists eD1. vm_compute; reflexivity.
    + vm_compute; reflexivity.
Defined.

(** C6 as stated fails: [add_to_pool] with an id that is already admitted
    completes without any failure, and leaves the id in two buckets. *)
Lemma contract_violations_counterexample :
  spends pool_D1 !! name eD2 = Some eD1 ∧
  add_to_pool eD2 (additions_of eD2) (removals_dic_of eD2) pool_D1
  = Ok tt pool_dup ∧
  bucket_count (name eD2) (sorted_spends pool_dup) = 2%nat ∧
  ¬ coherent pool_dup.
Proof.
  assert (bucket_count (name eD2) (sorted_spends pool_dup) = 2%nat) as Hcount
    by by_eval.
  split_and!; [by_eval|by_eval|done|].
  intros Hm.
  assert (spends pool_dup !! name eD2 = Some eD2) as Hsp by by_eval.
  rewrite (coherent_bucket_count_1 _ _ _ Hm Hsp) in Hcount. discriminate.
Qed.

(** ** C7: removal *)

Lemma sd_set_Forall (P : Qc * Bucket → Prop) k b d :
  P (k, b) → Forall P d → Forall P (sd_set k b d).
Proof.
  intros Hb. induction d as [|[k0 b0] d IH]; simpl.
  - by repeat constructor.
  - intros Hd. apply Forall_cons in Hd as [H0 Hd].
    destruct (k ?= k0)%Qc; repeat constructor; auto.
Qed.

Lemma sd_del_Forall (P : Qc * Bucket → Prop) k d :
  Forall P d → Forall P (sd_del k d).
Proof.
  induction d as [|[k0 b0] d IH]; simpl; [done|].
  intros Hd. apply Forall_cons in Hd as [H0 Hd].
  destruct (k ?= k0)%Qc; repeat constructor; auto.
Qed.

Lemma sd_wf_bucket d f b : sd_wf d → sd_get f d = Some b → NoDup (dict_keys b).
Proof.
  intros [_ Hall] Hb. apply sd_get_Some_elem in Hb.
  rewrite Forall_forall in Hall. by apply (Hall (f, b)).
Qed.

Lemma sd_remove_item_wf f k b d :
  sd_wf d → sd_get f d = Some b → sd_wf (sd_remove_item f k b d).
Proof.
  intros Hd Hb. pose proof (sd_wf_bucket d f b Hd Hb) as Hnd.
  destruct Hd as [Hs Hall]. split; [by apply sd_remove_item_sorted|].
  unfold sd_remove_item.
  assert (Forall (λ kb : Qc * Bucket, NoDup (dict_keys kb.2))
            (sd_set f (dict_del k b) d)) as Hset.
  { apply sd_set_Forall; [|done]. simpl. by apply dict_del_NoDup. }
  case_bool_decide; [by apply sd_del_Forall|done].
Qed.

Lemma sd_add_item_wf item d : sd_wf d → sd_wf (sd_add_item item d).
Proof.
  intros Hd. split; [apply sd_add_item_sorted, Hd|].
  rewrite sd_add_item_eq. apply sd_set_Forall; [|apply Hd].
  simpl. apply bucket_with_NoDup. intros b Hb. by eapply sd_wf_bucket.
Qed.

(** Every call keeps [sorted_spends] well formed, whatever its outcome. *)
Lemma exec_wf call m :
  sd_wf (sorted_spends m) → sd_wf (sorted_spends (state_of (exec call m))).
Proof.
  intros Hwf.
  assert (∀ item, sd_wf (sorted_spends (state_of (remove_spend item m)))) as Hrm.
  { intros item. pose proof (remove_spend_inv item m) as Hinv.
    destruct (remove_spend item m) as [[] m'|e m']; simpl.
    - destruct Hinv as (b & Hb & _ & _ & ->). simpl.
      by apply sd_remove_item_wf.
    - destruct Hinv as (_ & -> & _). done. }
  destruct call as [item al rd|item]; simpl; [|apply Hrm].
  rewrite add_to_pool_eq, evict_eq.
  case_bool_decide.
  - destruct (victim m) as [v|]; [|done].
    specialize (Hrm v).
    destruct (remove_spend v m) as [[] m'|e m']; simpl in *; [|done].
    by apply sd_add_item_wf.
  - simpl. by apply sd_add_item_wf.
Qed.

(** Every pool the code can build has a well-formed [sorted_spends]. *)
Lemma run_wf cs m :
  sd_wf (sorted_spends m) → sd_wf (sorted_spends (run cs m)).
Proof.
  revert m. induction cs as [|call cs IH]; intros m Hwf; simpl; [done|].
  by apply IH, exec_wf.
Qed.

Lemma create_wf tip c : sd_wf (sorted_spends (create tip c)).
Proof. split; simpl; constructor. Qed.

(** C7 (as amended). [remove_spend] is complete and frame preserving: let
    [e] be an entry that is in [spends] under its id, that is filed under
    its id in the bucket [b] of its fee rate in [sorted_spends], and each of
    whose consumed coins is a key of [removals] and each of whose produced
    coins is a key of [additions] (the coin lists being sets).  Then
    [remove_spend e] completes; it deletes [name e] from [spends] and from
    the bucket [b], deletes the bucket itself when it became empty, deletes
    every consumed coin of [e] from [removals] and every produced coin from
    [additions], and leaves every other key of the four indices, and the
    buckets of all other ids, as they were.  ([sd_wf] holds of every
    [sorted_spends] the code can build.) *)
Theorem remove_spend_complete m e b :
  sd_wf (sorted_spends m) →
  spends m !! name e = Some e →
  sd_get (fee_per_cost e) (sorted_spends m) = Some b →
  dict_get (name e) b = Some e →
  NoDup (consumed e) →
  (∀ c, c ∈ consumed e → is_Some (removals m !! c)) →
  NoDup (produced e) →
  (∀ c, c ∈ produced e → is_Some (additions m !! c)) →
  ∃ m',
    remove_spend e m = Ok tt m' ∧
    spends m' = delete (name e) (spends m) ∧
    (∀ f, sd_get f (sorted_spends m') =
          if decide (fee_per_cost e = f) then
            if decide (dict_del (name e) b = []) then None
            else Some (dict_del (name e) b)
          else sd_get f (sorted_spends m)) ∧
    (∀ k, dict_get k (dict_del (name e) b) =
          if decide (name e = k) then None else dict_get k b) ∧
    filed (sorted_spends m') (fee_per_cost e) (name e) = None ∧
    (∀ f k, k ≠ name e →
            filed (sorted_spends m') f k = filed (sorted_spends m) f k) ∧
    (∀ f, f ≠ fee_per_cost e →
          sd_get f (sorted_spends m') = sd_get f (sorted_spends m)) ∧
    (∀ c, removals m' !! c =
          if decide (c ∈ consumed e) then None else removals m !! c) ∧
    (∀ c, additions m' !! c =
          if decide (c ∈ produced e) then None else additions m !! c) ∧
    header m' = header m ∧ size m' = size m ∧ min_fee m' = min_fee m ∧
    sd_wf (sorted_spends m').
Proof.
  intros Hwf He Hb Hg Hndc Hc Hndp Hp.
  pose proof (sd_wf_bucket _ _ _ Hwf Hb) as Hnd.
  assert (∀ f, sd_get f (sorted_spends (removed e b m)) =
               if decide (fee_per_cost e = f) then
                 if decide (dict_del (name e) b = []) then None
                 else Some (dict_del (name e) b)
               else sd_get f (sorted_spends m)) as Hget.
  { intros f. simpl. apply sd_get_remove_item, Hwf. }
  assert (∀ k, dict_get k (dict_del (name e) b) =
               if decide (name e = k) then None else dict_get k b) as Hdel
    by (intros k; by apply dict_get_del).
  exists (removed e b m). split_and!; try done.
  - apply remove_spend_Ok; eauto.
  - unfold filed. rewrite Hget, decide_True by done.
    destruct (decide (dict_del (name e) b = [])) as [Hnil|Hnil]; [done|].
    by rewrite Hdel, decide_True.
  - intros f k Hk. unfold filed. rewrite Hget.
    destruct (decide (fee_per_cost e = f)) as [<-|Hf]; [|done].
    rewrite Hb.
    destruct (decide (dict_del (name e) b = [])) as [Hnil|Hnil].
    + specialize (Hdel k). rewrite Hnil in Hdel. simpl in Hdel.
      by rewrite decide_False in Hdel.
    + by rewrite Hdel, decide_False.
  - intros f Hf. by rewrite Hget, decide_False.
  - intros c. simpl. apply del_keys_lookup.
  - intros c. simpl. apply del_keys_lookup.
  - simpl. by apply sd_remove_item_wf.
Qed.

Lemma remove_spend_complete_witness :
  ∃ m', remove_spend eY pool_XY = Ok tt m' ∧
        spends m' = delete (name eY) (spends pool_XY) ∧
        sd_get (fee_per_cost eY) (sorted_spends m') = None ∧
        removals m' !! 20%N = None ∧ additions m' !! 21%N = None ∧
        spends m' !! name eX = Some eX ∧
        filed (sorted_spends m') (fee_per_cost eX) (name eX) = Some eX ∧
        removals m' !! 10%N = Some eX ∧ additions m' !! 11%N = Some eX.
Proof.
  destruct (remove_spend_complete pool_XY eY [(name eY, eY)])
    as (m' & Hrm & Hsp & Hss & _ & _ & Hframe & _ & Hr & Ha & _).
  - apply (run_wf [add_call eX; add_call eY]), create_wf.
  - vm_compute; reflexivity.
  - vm_compute; reflexivity.
  - vm_compute; reflexivity.
  - apply (bool_decide_unpack _). vm_compute. exact I.
  - intros c Hc. apply elem_of_cons in Hc as [->|Hc];
      [exists eY; vm_compute; reflexivity|by apply elem_of_nil in Hc].
  - apply (bool_decide_unpack _). vm_compute. exact I.
  - intros c Hc. apply elem_of_cons in Hc as [->|Hc];
      [exists eY; vm_compute; reflexivity|by apply elem_of_nil in Hc].
  - exists m'. split_and!; try assumption.
    + rewrite Hss, decide_True by reflexivity. reflexivity.
    + rewrite Hr. reflexivity.
    + rewrite Ha. reflexivity.
    + rewrite Hsp. vm_compute; reflexivity.
    + rewrite Hframe by (vm_compute; discriminate). vm_compute; reflexivity.
    + rewrite Hr. vm_compute; reflexivity.
    + rewrite Ha. vm_compute; reflexivity.
Defined.

(** C7 as stated fails: [eC2] is the only entry of the pool, in [spends]
    and in the bucket of its fee rate, and no other admitted entry shares
    its coins; but the removal of [eC1], which consumed the same coin 10,
    took that coin out of [removals].  [remove_spend eC2] raises [KeyError]
    and [eC2] stays in the pool. *)
Lemma remove_spend_complete_counterexample :
  steps admit_pre (create tip0 2) pool_orphan ∧
  spends pool_orphan = {[name eC2 := eC2]} ∧
  filed (sorted_spends pool_orphan) (fee_per_cost eC2) (name eC2) = Some eC2 ∧
  removals pool_orphan !! 10%N = None ∧
  remove_spend eC2 pool_orphan = Raise KeyError pool_orphan ∧
  spends pool_orphan !! name eC2 = Some eC2.
Proof.
  split_and!; try by_eval.
  apply (steps_remove _ _ pool_conflict eC1); [|by_eval|by_eval].
  concrete_add pool_C1 eC2. concrete_add (create tip0 2) eC1. apply steps_init.
Qed.

(** ** C8: the tie of scenario B *)

Lemma create_pre tip c item al rd :
  admit_pre (create tip c) item al rd →
  admit_pre_no_conflict (create tip c) item al rd.
Proof. intros H. split; [done|]. split; intros; apply lookup_empty. Qed.

Lemma del_set_keys_empty ks ks' item :
  (∀ c, c ∈ ks' ↔ c ∈ ks) →
  del_keys ks (set_keys ks' item ∅) = ∅.
Proof.
  intros H. apply map_eq. intros c.
  rewrite del_keys_lookup, set_keys_lookup, lookup_empty.
  repeat case_decide; try done. naive_solver.
Qed.

(** C8. Scenario B: in a pool of capacity 1, after [add_to_pool] of an
    entry [X] of fee rate 1 the pool is full; [add_to_pool] of an entry [Y]
    of the same fee rate then evicts [X], and the pool holds [Y] only, in
    all four indices. *)
Theorem tie_break_scenario tip X alX rdX Y alY rdY :
  fee_per_cost X = 1%Qc → fee_per_cost Y = 1%Qc →
  admit_pre (create tip 1) X alX rdX →
  ∃ m1 m2,
    add_to_pool X alX rdX (create tip 1) = Ok tt m1 ∧
    spends m1 = {[name X := X]} ∧
    at_full_capacity m1 = Ok true m1 ∧
    victim m1 = Some X ∧
    add_to_pool Y alY rdY m1 = Ok tt m2 ∧
    spends m2 = {[name Y := Y]} ∧
    sorted_spends m2 = [(1%Qc, [(name Y, Y)])] ∧
    additions m2 = set_keys (coin_name <$> alY) Y ∅ ∧
    removals m2 = set_keys (dict_keys rdY) Y ∅.
Proof.
  intros HfX HfY Hpre.
  set (m1 := inserted X alX rdX (create tip 1)).
  assert (coherent m1) as Hm1.
  { apply inserted_coherent; [apply create_coherent|by apply create_pre]. }
  assert (len (spends m1) = 1) as Hlen.
  { simpl. unfold len. by rewrite insert_empty, map_size_singleton. }
  assert (victim m1 = Some X) as Hv by done.
  destruct (add_to_pool_full m1 Y alY rdY Hm1) as (v & b & Hv' & Hb & Hadd);
    [done|rewrite Hlen; simpl; lia|].
  rewrite Hv in Hv'. injection Hv' as <-.
  assert (b = [(name X, X)]) as ->.
  { simpl in Hb. rewrite Qccompare_refl in Hb. congruence. }
  destruct Hpre as (_ & _ & _ & Hal & Hrd).
  eexists m1, _. split_and!; [|done| |done|exact Hadd|..].
  - by apply add_to_pool_not_full.
  - unfold at_full_capacity. by rewrite Hlen.
  - simpl. by rewrite delete_insert_eq, delete_empty, insert_empty.
  - simpl. unfold sd_remove_item. simpl.
    rewrite decide_True by done. simpl.
    rewrite Qccompare_refl. simpl. rewrite Qccompare_refl.
    unfold sd_add_item. simpl. by rewrite HfY.
  - simpl. by rewrite del_set_keys_empty.
  - simpl. by rewrite del_set_keys_empty.
Qed.

Lemma tie_break_scenario_witness :
  ∃ m1 m2,
    add_to_pool (entry 1 1 [10%N] [11%N]) [mkCoin 11%N] [(10%N, mkCoin 10%N)]
                (create tip0 1) = Ok tt m1 ∧
    spends m1 = {[1%N := entry 1 1 [10%N] [11%N]]} ∧
    at_full_capacity m1 = Ok true m1 ∧
    victim m1 = Some (entry 1 1 [10%N] [11%N]) ∧
    add_to_pool (entry 2 1 [20%N] [21%N]) [mkCoin 21%N] [(20%N, mkCoin 20%N)] m1
    = Ok tt m2 ∧
    spends m2 = {[2%N := entry 2 1 [20%N] [21%N]]} ∧
    sorted_spends m2 = [(1%Qc, [(2%N, entry 2 1 [20%N] [21%N])])] ∧
    additions m2 = set_keys [21%N] (entry 2 1 [20%N] [21%N]) ∅ ∧
    removals m2 = set_keys [20%N] (entry 2 1 [20%N] [21%N]) ∅.
Proof.
  apply (tie_break_scenario tip0 (entry 1 1 [10%N] [11%N]) [mkCoin 11%N]
           [(10%N, mkCoin 10%N)] (entry 2 1 [20%N] [21%N]) [mkCoin 21%N]
           [(20%N, mkCoin 20%N)]).
  - apply Qc_is_canon. reflexivity.
  - apply Qc_is_canon. reflexivity.
  - concrete_pre.
Defined.

(** ** C9: no empty bucket *)

(** The bucket of the fee rate of the only admitted entry holds that entry
    only. *)
Lemma only_entry_bucket m X b :
  coherent m → spends m = {[name X := X]} →
  sd_get (fee_per_cost X) (sorted_spends m) = Some b →
  dict_get (name X) b = Some X →
  dict_del (name X) b = [].
Proof.
  intros Hm Hsp Hb Hg.
  destruct (coh_bucket m Hm _ _ Hb) as [Hnd Hbe].
  assert (∀ k it, dict_get k b = Some it → k = name X) as Hkey.
  { intros k it Hit. destruct (Hbe k it Hit) as (_ & _ & Hk).
    rewrite Hsp in Hk. by apply lookup_singleton_Some in Hk as [-> _]. }
  destruct b as [|[k1 v1] [|[k2 v2] b]]; [done| |].
  - simpl. rewrite decide_True; [done|].
    apply (Hkey k1 v1). simpl. by rewrite decide_True.
  - exfalso. assert (k1 = name X) as ->.
    { apply (Hkey k1 v1). simpl. by rewrite decide_True. }
    destruct (decide (name X = k2)) as [<-|Hne].
    + unfold dict_keys in Hnd. simpl in Hnd.
      apply NoDup_cons in Hnd as [Hnd _]. apply Hnd. left.
    + apply Hne. symmetry. apply (Hkey k2 v2). simpl.
      by rewrite decide_False, decide_True.
Qed.

(** C9. No empty buckets: in every state reached from an empty pool by
    completed calls that respect the contract, [sorted_spends] maps no key
    to an empty bucket; and (scenario C) [remove_spend] of the entry [X], of
    fee rate 7, from a pool that holds only [X] leaves [sorted_spends]
    without the key 7. *)
Theorem no_empty_buckets :
  (∀ tip c m, steps admit_pre (create tip c) m →
     no_empty_bucket (sorted_spends m)) ∧
  (∀ m X, coherent m → spends m = {[name X := X]} →
     fee_per_cost X = Qc_of_Z 7 →
     ∃ m', remove_spend X m = Ok tt m' ∧
           sd_get (Qc_of_Z 7) (sorted_spends m') = None ∧
           ((Qc_of_Z 7) ∉ (sorted_spends m').*1) ∧
           no_empty_bucket (sorted_spends m')).
Proof.
  split.
  - intros tip c m. apply steps_no_empty. constructor.
  - intros m X Hm Hsp HfX.
    assert (spends m !! name X = Some X) as HX
      by (rewrite Hsp; apply lookup_singleton_eq).
    destruct (coherent_remove_Ok m X Hm HX) as (b & Hb & Hg & Hrm).
    assert (sd_get (Qc_of_Z 7) (sorted_spends (removed X b m)) = None) as Hnone.
    { simpl. rewrite sd_get_remove_item by apply Hm.
      rewrite decide_True by done.
      rewrite decide_True; [done|]. by eapply only_entry_bucket. }
    exists (removed X b m). split_and!; try done.
    + by apply sd_get_None.
    + simpl. apply sd_remove_item_no_empty, Hm.
Qed.

Lemma no_empty_buckets_witness :
  no_empty_bucket (sorted_spends pool_XY) ∧
  ∃ m', remove_spend e7 pool_7 = Ok tt m' ∧
        sd_get (Qc_of_Z 7) (sorted_spends m') = None ∧
        ((Qc_of_Z 7) ∉ (sorted_spends m').*1) ∧
        no_empty_bucket (sorted_spends m').
Proof.
  split.
  - apply (proj1 no_empty_buckets tip0 2).
    concrete_add pool_X eY. concrete_add (create tip0 2) eX. apply steps_init.
  - apply (proj2 no_empty_buckets pool_7 e7).
    + apply (reachable_coherent tip0 1).
      concrete_add (create tip0 1) e7. apply steps_init.
    + vm_compute; reflexivity.
    + reflexivity.
Defined.

(** ** C10: conflicting entries *)

Lemma set_keys_is_Some ks ks' it it' c :
  c ∈ ks → is_Some (set_keys ks' it' (set_keys ks it ∅) !! c).
Proof.
  intros Hc. rewrite !set_keys_lookup. case_decide; [by eauto|].
  rewrite decide_True by done. eauto.
Qed.

(** C10. Conflict overwrite: the pool does not reject conflicts.  When
    [e1], which consumes the coin [c], is admitted and then [e2], which
    also consumes [c], is admitted, [removals[c]] is overwritten to [e2]; a
    later [remove_spend e1] deletes [c] from [removals], so that [e2], still
    admitted, has a consumed coin that [removals] does not map. *)
Theorem conflict_overwrite tip cap e1 al1 rd1 e2 al2 rd2 c :
  2 <= cap →
  admit_pre (create tip cap) e1 al1 rd1 →
  name e2 ≠ name e1 →
  c ∈ consumed e1 →
  c ∈ consumed e2 →
  (∀ c, c ∈ dict_keys rd2 ↔ c ∈ consumed e2) →
  ∃ m1 m2 m3,
    add_to_pool e1 al1 rd1 (create tip cap) = Ok tt m1 ∧
    removals m1 !! c = Some e1 ∧
    add_to_pool e2 al2 rd2 m1 = Ok tt m2 ∧
    removals m2 !! c = Some e2 ∧
    spends m2 !! name e1 = Some e1 ∧
    remove_spend e1 m2 = Ok tt m3 ∧
    removals m3 !! c = None ∧
    spends m3 !! name e2 = Some e2.
Proof.
  intros Hcap (_ & Hndc & Hndp & Hal & Hrd) Hne Hc1 Hc2 Hrd2.
  set (m1 := inserted e1 al1 rd1 (create tip cap)).
  set (m2 := inserted e2 al2 rd2 m1).
  assert (add_to_pool e1 al1 rd1 (create tip cap) = Ok tt m1) as Hadd1.
  { apply add_to_pool_not_full. simpl. unfold len. rewrite map_size_empty. lia. }
  assert (add_to_pool e2 al2 rd2 m1 = Ok tt m2) as Hadd2.
  { apply add_to_pool_not_full. simpl. unfold len.
    rewrite insert_empty, map_size_singleton. lia. }
  assert (∃ b, sd_get (fee_per_cost e1) (sorted_spends m2) = Some b ∧
               dict_get (name e1) b = Some e1) as (b & Hb & Hg).
  { simpl. rewrite sd_get_add_item. case_decide as Hf.
    - eexists. split; [done|].
      rewrite dict_get_bucket_with, decide_False by done.
      rewrite Hf. unfold sd_add_item. simpl. rewrite Qccompare_refl.
      simpl. by rewrite decide_True.
    - unfold sd_add_item. simpl. rewrite Qccompare_refl.
      eexists. split; [done|]. simpl. by rewrite decide_True. }
  assert (remove_spend e1 m2 = Ok tt (removed e1 b m2)) as Hrm.
  { apply remove_spend_Ok; [exact Hndc| |exact Hndp| | |exact Hb|by eauto].
    - intros c' Hc'. simpl. apply set_keys_is_Some. by apply Hrd.
    - intros c' Hc'. simpl. apply set_keys_is_Some. by apply Hal.
    - simpl. rewrite lookup_insert_ne by done. rewrite lookup_insert_eq. eauto. }
  exists m1, m2, (removed e1 b m2). split_and!; try done.
  - simpl. rewrite set_keys_lookup, decide_True; [done|]. by apply Hrd.
  - simpl. rewrite set_keys_lookup, decide_True; [done|]. by apply Hrd2.
  - simpl. rewrite lookup_insert_ne by done. apply lookup_insert_eq.
  - simpl. by rewrite del_keys_lookup, decide_True.
  - simpl. rewrite lookup_delete_ne by done. apply lookup_insert_eq.
Qed.

Lemma conflict_overwrite_witness :
  ∃ m1 m2 m3,
    add_to_pool eC1 (additions_of eC1) (removals_dic_of eC1) (create tip0 2)
    = Ok tt m1 ∧
    removals m1 !! 10%N = Some eC1 ∧
    add_to_pool eC2 (additions_of eC2) (removals_dic_of eC2) m1 = Ok tt m2 ∧
    removals m2 !! 10%N = Some eC2 ∧
    spends m2 !! name eC1 = Some eC1 ∧
    remove_spend eC1 m2 = Ok tt m3 ∧
    removals m3 !! 10%N = None ∧
    spends m3 !! name eC2 = Some eC2.
Proof.
  apply (conflict_overwrite tip0 2 eC1 (additions_of eC1) (removals_dic_of eC1)
           eC2 (additions_of eC2) (removals_dic_of eC2) 10%N).
  - vm_compute; discriminate.
  - concrete_pre.
  - vm_compute; discriminate.
  - simpl. left.
  - simpl. left.
  - intros c. reflexivity.
Defined.

(** * Further properties of the pool *)

(** ** Insertion into a pool that is not full *)

(** X1. [add_to_pool] on a pool that is not at full capacity always
    completes, whatever the entry and the coins passed along; afterwards
    the entry is found under its id in [spends] and in the bucket of its fee
    rate, every coin passed along maps to it, and all other keys of the
    four indices are as before (nothing is evicted). *)
Theorem add_to_pool_lookup m item al rd :
  len (spends m) < size m →
  ∃ m',
    add_to_pool item al rd m = Ok tt m' ∧
    spends m' !! name item = Some item ∧
    (∀ k, k ≠ name item → spends m' !! k = spends m !! k) ∧
    (∃ b, sd_get (fee_per_cost item) (sorted_spends m') = Some b ∧
          dict_get (name item) b = Some item ∧
          ∀ k, k ≠ name item →
               dict_get k b =
               match sd_get (fee_per_cost item) (sorted_spends m) with
               | Some b0 => dict_get k b0
               | None => None
               end) ∧
    (∀ f, f ≠ fee_per_cost item →
          sd_get f (sorted_spends m') = sd_get f (sorted_spends m)) ∧
    (∀ c, additions m' !! c =
          if decide (c ∈ coin_name <$> al) then Some item
          else additions m !! c) ∧
    (∀ c, removals m' !! c =
          if decide (c ∈ dict_keys rd) then Some item
          else removals m !! c).
Proof.
  intros Hlt. exists (inserted item al rd m).
  split_and!; simpl.
  - by apply add_to_pool_not_full.
  - apply lookup_insert_eq.
  - intros k Hk. by rewrite lookup_insert_ne.
  - exists (bucket_with item (sorted_spends m)).
    rewrite sd_get_add_item, decide_True by done. split; [done|].
    split.
    + by rewrite dict_get_bucket_with, decide_True.
    + intros k Hk. by rewrite dict_get_bucket_with, decide_False.
  - intros f Hf. by rewrite sd_get_add_item, decide_False.
  - intros c. apply set_keys_lookup.
  - intros c. apply set_keys_lookup.
Qed.

Lemma add_to_pool_lookup_witness :
  ∃ m',
    add_to_pool eY (additions_of eY) (removals_dic_of eY) pool_X = Ok tt m' ∧
    spends m' !! name eY = Some eY ∧
    spends m' !! name eX = Some eX ∧
    removals m' !! 20%N = Some eY ∧ removals m' !! 10%N = Some eX.
Proof.
  destruct (add_to_pool_lookup pool_X eY (additions_of eY) (removals_dic_of eY))
    as (m' & Hadd & Hit & Hother & _ & _ & _ & Hrem).
  - vm_compute; reflexivity.
  - exists m'. split_and!; try assumption.
    + rewrite Hother; [vm_compute; reflexivity|vm_compute; discriminate].
    + rewrite Hrem. vm_compute; reflexivity.
    + rewrite Hrem. vm_compute; reflexivity.
Defined.

(** ** Admitting an entry and removing it again *)

Lemma sd_set_get_id f b d : sd_sorted d → sd_get f d = Some b → sd_set f b d = d.
Proof.
  induction d as [|[k0 b0] d IH]; simpl; [done|].
  rewrite sd_sorted_cons. intros [Hs Hall].
  destruct (f ?= k0)%Qc eqn:Hc.
  - apply Qccompare_Eq in Hc. by intros [= ->]; subst.
  - intros Hget. apply sd_get_Some_elem in Hget.
    apply Qccompare_Lt in Hc. rewrite Forall_forall in Hall.
    assert (k0 < f)%Qc as Hlt.
    { apply Hall, list_elem_of_fmap. by exists (f, b). }
    exfalso. apply (Qclt_ne f f); [|done]. by eapply Qclt_trans.
  - intros Hget. by rewrite IH.
Qed.

Lemma sd_del_set_absent f b d : sd_get f d = None → sd_del f (sd_set f b d) = d.
Proof.
  induction d as [|[k0 b0] d IH]; simpl.
  - intros _. by rewrite Qccompare_refl.
  - destruct (f ?= k0)%Qc eqn:Hc; [done| |]; intros Hget; simpl.
    + by rewrite Qccompare_refl.
    + by rewrite Hc, IH.
Qed.

Lemma dict_del_set_absent {K V} `{EqDecision K} (k : K) (v : V) (d : pydict K V) :
  dict_get k d = None → dict_del k (dict_set k v d) = d.
Proof.
  induction d as [|[k0 v0] d IH]; simpl.
  - intros _. by rewrite decide_True.
  - destruct (decide (k0 = k)) as [->|Hne]; [done|].
    intros Hget. simpl. by rewrite decide_False, IH.
Qed.

Lemma del_set_keys_absent ks ks' item (r : gmap bytes32 MempoolItem) :
  (∀ c, c ∈ ks ↔ c ∈ ks') →
  (∀ c, c ∈ ks' → r !! c = None) →
  del_keys ks (set_keys ks' item r) = r.
Proof.
  intros Hks Hnone. apply map_eq. intros c.
  rewrite del_keys_lookup, set_keys_lookup.
  destruct (decide (c ∈ ks)) as [Hin|Hin].
  - symmetry. by apply Hnone, Hks.
  - rewrite decide_False; [done|]. by rewrite <-Hks.
Qed.

(** Filing a new id and taking it out again leaves [sorted_spends] as it
    was. *)
Lemma sd_remove_add_item m item :
  coherent_ids m → spends m !! name item = None →
  sd_remove_item (fee_per_cost item) (name item)
    (bucket_with item (sorted_spends m)) (sd_add_item item (sorted_spends m))
  = sorted_spends m.
Proof.
  intros Hm Hfresh. unfold sd_remove_item.
  rewrite sd_add_item_eq, sd_set_set, dict_values_length.
  unfold bucket_with.
  destruct (sd_get (fee_per_cost item) (sorted_spends m)) as [b0|] eqn:Hb0.
  - assert (dict_get (name item) b0 = None) as Hnone.
    { destruct (dict_get (name item) b0) as [it|] eqn:Hit; [|done].
      destruct (coh_bucket m Hm _ _ Hb0) as [_ Hbe].
      destruct (Hbe _ _ Hit) as (_ & _ & Hsp). congruence. }
    rewrite dict_del_set_absent by done.
    assert (b0 ≠ []) as Hne.
    { pose proof (coh_no_empty m Hm) as Hall. unfold no_empty_bucket in Hall.
      rewrite Forall_forall in Hall.
      apply (Hall (fee_per_cost item, b0)). by apply sd_get_Some_elem. }
    rewrite bool_decide_false by (by rewrite list_length_0_nil).
    apply sd_set_get_id; [apply Hm|done].
  - simpl. rewrite decide_True by done. simpl.
    by apply sd_del_set_absent.
Qed.

(** X2. Round trip: on a pool that is not full and whose [spends] and
    [sorted_spends] are coherent, admitting a new entry whose coins are
    not in the coin indices and then removing it gives back exactly the
    pool one started from. *)
Theorem add_remove_round_trip m item al rd :
  coherent_ids m →
  len (spends m) < size m →
  admit_pre_no_conflict m item al rd →
  ∃ m1, add_to_pool item al rd m = Ok tt m1 ∧
        spends m1 !! name item = Some item ∧
        remove_spend item m1 = Ok tt m.
Proof.
  intros Hm Hlt [(Hfresh & Hndc & Hndp & Hal & Hrd) [Hnc Hnp]].
  exists (inserted item al rd m). split_and!.
  - by apply add_to_pool_not_full.
  - simpl. apply lookup_insert_eq.
  - rewrite (remove_spend_Ok item _ (bucket_with item (sorted_spends m))).
    + f_equal. unfold removed. simpl.
      rewrite delete_insert_id by done.
      rewrite sd_remove_add_item by done.
      rewrite (del_set_keys_absent (produced item) (coin_name <$> al));
        [|intros c; symmetry; apply Hal|intros c Hc; by apply Hnp, Hal].
      rewrite (del_set_keys_absent (consumed item) (dict_keys rd));
        [|intros c; symmetry; apply Hrd|intros c Hc; by apply Hnc, Hrd].
      by destruct m.
    + done.
    + intros c Hc. simpl. rewrite set_keys_lookup, decide_True; [by eauto|].
      by apply Hrd.
    + done.
    + intros c Hc. simpl. rewrite set_keys_lookup, decide_True; [by eauto|].
      by apply Hal.
    + simpl. rewrite lookup_insert_eq. eauto.
    + simpl. by rewrite sd_get_add_item, decide_True.
    + rewrite dict_get_bucket_with, decide_True by done. eauto.
Qed.

Lemma add_remove_round_trip_witness :
  ∃ m1, add_to_pool eY (additions_of eY) (removals_dic_of eY) pool_X = Ok tt m1 ∧
        spends m1 !! name eY = Some eY ∧
        remove_spend eY m1 = Ok tt pool_X.
Proof.
  apply (add_remove_round_trip pool_X eY).
  - apply (reachable_coherent_ids tip0 2).
    concrete_add (create tip0 2) eX. apply steps_init.
  - vm_compute; reflexivity.
  - concrete_pre.
Defined.

(** ** Which entry is evicted next *)

(** The entry the next eviction would pick, after the insertion of a new
    id. *)
Lemma victim_inserted m item al rd :
  coherent_ids m →
  spends m !! name item = None →
  victim (inserted item al rd m) =
  Some match victim m with
       | Some v =>
           if decide (fee_per_cost item < fee_per_cost v)%Qc
           then item else v
       | None => item
       end.
Proof.
  intros Hm Hfresh.
  pose proof (coh_sorted m Hm) as Hs. pose proof (coh_no_empty m Hm) as Hne.
  pose proof (coh_bucket m Hm) as Hbk.
  unfold victim. simpl. unfold sd_add_item.
  destruct (sorted_spends m) as [|[f [|[k0 v] b]] d]; simpl.
  - done.
  - apply Forall_cons in Hne as [Hne _]. done.
  - destruct (Hbk f ((k0, v) :: b)) as [_ Hbe];
      [simpl; by rewrite Qccompare_refl|].
    destruct (Hbe k0 v) as (Hk0 & Hfv & Hsp); [simpl; by rewrite decide_True|].
    assert (k0 ≠ name item) as Hk by congruence.
    apply sd_sorted_cons in Hs as [Hs Hall].
    destruct (fee_per_cost item ?= f)%Qc eqn:Hc; simpl.
    + apply Qccompare_Eq in Hc.
      rewrite decide_False by done.
      rewrite decide_False; [done|].
      rewrite Hfv, Hc. intros Hlt'. by apply Qclt_ne in Hlt'.
    + apply Qccompare_Lt in Hc.
      assert (sd_get (fee_per_cost item) d = None) as ->.
      { apply sd_get_None. intros Hin. rewrite Forall_forall in Hall.
        apply Hall in Hin. apply (Qclt_ne f f); [|done]. by eapply Qclt_trans. }
      rewrite decide_True by (by rewrite Hfv). done.
    + apply Qccompare_Gt in Hc.
      rewrite decide_False
        by (rewrite Hfv; intros Hlt'; apply (Qclt_ne f f); [|done];
            by eapply Qclt_trans).
      by destruct (sd_get (fee_per_cost item) d).
Qed.

Lemma dict_set_absent {K V} `{EqDecision K} (k : K) (v : V) (d : pydict K V) :
  dict_get k d = None → dict_set k v d = d ++ [(k, v)].
Proof.
  induction d as [|[k0 v0] d IH]; simpl; [done|].
  destruct (decide (k0 = k)); [done|]. intros Hget. by rewrite IH.
Qed.

(** The insertion of a new id puts the entry at the end of the bucket of
    its fee rate and leaves the other buckets alone. *)
Lemma bucket_of_inserted m item al rd f :
  coherent_ids m → spends m !! name item = None →
  bucket_of f (sorted_spends (inserted item al rd m)) =
  bucket_of f (sorted_spends m) ++
  (if decide (fee_per_cost item = f) then [item] else []).
Proof.
  intros Hm Hfresh. unfold bucket_of. simpl. rewrite sd_get_add_item.
  destruct (decide (fee_per_cost item = f)) as [<-|Hf]; [|by rewrite app_nil_r].
  unfold bucket_with.
  destruct (sd_get (fee_per_cost item) (sorted_spends m)) as [b|] eqn:Hb; [|done].
  assert (dict_get (name item) b = None) as Hnone.
  { destruct (dict_get (name item) b) as [it|] eqn:Hit; [|done].
    destruct (coh_bucket m Hm _ _ Hb) as [_ Hbe].
    destruct (Hbe _ _ Hit) as (_ & _ & Hsp). congruence. }
  rewrite dict_set_absent by done. unfold dict_values.
  by rewrite fmap_app.
Qed.

(** Admitting new, pairwise different ids into a pool that has room for
    them all. *)
Lemma run_add_calls adds m :
  coherent_ids m →
  NoDup ((λ a, name a.1) <$> adds) →
  (∀ a, a ∈ adds → spends m !! name a.1 = None) →
  len (spends m) + Z.of_nat (length adds) <= size m →
  coherent_ids (run (add_calls adds) m) ∧
  size (run (add_calls adds) m) = size m ∧
  len (spends (run (add_calls adds) m)) = len (spends m) + Z.of_nat (length adds) ∧
  (∀ a, a ∈ adds → spends (run (add_calls adds) m) !! name a.1 = Some a.1) ∧
  (∀ k, k ∉ (λ a, name a.1) <$> adds →
        spends (run (add_calls adds) m) !! k = spends m !! k) ∧
  (∀ f, bucket_of f (sorted_spends (run (add_calls adds) m)) =
        bucket_of f (sorted_spends m) ++
        filter (λ it, fee_per_cost it = f) adds.*1).
Proof.
  revert m. induction adds as [|[item [al rd]] adds IH]; intros m Hm Hnd Hfresh Hroom.
  - simpl. split_and!.
    + done.
    + done.
    + lia.
    + intros a Ha. by apply elem_of_nil in Ha.
    + done.
    + intros f. by rewrite app_nil_r.
  - rewrite fmap_cons in Hnd. apply NoDup_cons in Hnd as [Hhd Hnd].
    simpl in Hhd, Hroom. simpl.
    assert (spends m !! name item = None) as Hitem by (apply (Hfresh (item, (al, rd))); left).
    rewrite add_to_pool_not_full by lia. simpl.
    set (m1 := inserted item al rd m).
    assert (coherent_ids m1) as Hm1 by by apply inserted_coherent_ids.
    assert (len (spends m1) = len (spends m) + 1) as Hlen.
    { simpl. unfold len. rewrite map_size_insert_None by done. lia. }
    destruct (IH m1 Hm1 Hnd) as (Hc & Hsz & Hl & Hin & Hout & Hbk).
    + intros a Ha. simpl. rewrite lookup_insert_ne.
      * apply Hfresh. by right.
      * intros Heq. apply Hhd. rewrite Heq. apply list_elem_of_fmap. by exists a.
    + rewrite Hlen. simpl. lia.
    + split_and!; try done.
      * rewrite Hl, Hlen. lia.
      * intros a Ha. apply elem_of_cons in Ha as [->|Ha]; [|by apply Hin].
        simpl. rewrite Hout by done. simpl. apply lookup_insert_eq.
      * intros k Hk. simpl in Hk. apply not_elem_of_cons in Hk as [Hk1 Hk2].
        rewrite Hout by done. simpl. by rewrite lookup_insert_ne.
      * intros f. rewrite Hbk.
        unfold m1. rewrite bucket_of_inserted by done.
        rewrite <-app_assoc. f_equal. rewrite filter_cons.
        by destruct (decide (fee_per_cost item = f)).
Qed.

Lemma victim_bucket_head m v :
  coherent_ids m → victim m = Some v →
  head (bucket_of (fee_per_cost v) (sorted_spends m)) = Some v.
Proof.
  intros Hm Hv.
  destruct (victim_coherent m v Hm Hv) as (_ & (b & d & Hd) & _).
  unfold victim in Hv. unfold bucket_of. rewrite Hd in *. simpl.
  rewrite Qccompare_refl.
  destruct b as [|[k v0] b]; [done|]. by injection Hv as ->.
Qed.

(** X3. Buckets are first in, first out queues: when entries with new,
    pairwise different ids are admitted one after the other into a pool
    (with coherent [spends] and [sorted_spends]) that has room for them
    all, every call completes, every entry is admitted, and each bucket
    becomes the old bucket followed by the admitted entries of that fee
    rate in the order of their admission.  The entry the next eviction
    picks is the first entry of that queue for its own fee rate, which is
    the least fee rate in the pool: among the entries of least fee rate,
    the one that has been in the pool longest goes first. *)
Theorem buckets_in_admission_order m adds :
  coherent_ids m →
  NoDup ((λ a, name a.1) <$> adds) →
  (∀ a, a ∈ adds → spends m !! name a.1 = None) →
  len (spends m) + Z.of_nat (length adds) <= size m →
  (∀ a, a ∈ adds → spends (run (add_calls adds) m) !! name a.1 = Some a.1) ∧
  (∀ f, bucket_of f (sorted_spends (run (add_calls adds) m)) =
        bucket_of f (sorted_spends m) ++
        filter (λ it, fee_per_cost it = f) adds.*1) ∧
  (∀ v, victim (run (add_calls adds) m) = Some v →
        head (bucket_of (fee_per_cost v) (sorted_spends m) ++
              filter (λ it, fee_per_cost it = fee_per_cost v) adds.*1) = Some v ∧
        ∀ k it, spends (run (add_calls adds) m) !! k = Some it →
                (fee_per_cost v ≤ fee_per_cost it)%Qc).
Proof.
  intros Hm Hnd Hfresh Hroom.
  destruct (run_add_calls adds m Hm Hnd Hfresh Hroom)
    as (Hm' & _ & _ & Hin & _ & Hbk).
  split_and!; try done.
  intros v Hv. split.
  - rewrite <-Hbk. by apply victim_bucket_head.
  - by destruct (victim_coherent _ v Hm' Hv) as (_ & _ & Hmin).
Qed.

Lemma buckets_in_admission_order_witness :
  bucket_of (Qc_of_Z 5)
    (sorted_spends
       (run (add_calls [(entry 1 5 [10%N] [], ([], [(10%N, mkCoin 10%N)]));
                        (entry 2 3 [20%N] [], ([], [(20%N, mkCoin 20%N)]));
                        (entry 3 5 [30%N] [], ([], [(30%N, mkCoin 30%N)]));
                        (entry 4 3 [40%N] [], ([], [(40%N, mkCoin 40%N)]))])
            (create tip0 4)))
  = [entry 1 5 [10%N] []; entry 3 5 [30%N] []] ∧
  head (filter (λ it, fee_per_cost it = Qc_of_Z 3)
          [entry 1 5 [10%N] []; entry 2 3 [20%N] [];
           entry 3 5 [30%N] []; entry 4 3 [40%N] []])
  = Some (entry 2 3 [20%N] []).
Proof.
  destruct (buckets_in_admission_order (create tip0 4)
              [(entry 1 5 [10%N] [], ([], [(10%N, mkCoin 10%N)]));
               (entry 2 3 [20%N] [], ([], [(20%N, mkCoin 20%N)]));
               (entry 3 5 [30%N] [], ([], [(30%N, mkCoin 30%N)]));
               (entry 4 3 [40%N] [], ([], [(40%N, mkCoin 40%N)]))])
    as (_ & Hbk & Hv).
  - apply create_coherent_ids.
  - apply (bool_decide_unpack _). vm_compute. exact I.
  - intros a _. apply lookup_empty.
  - vm_compute. discriminate.
  - split.
    + rewrite Hbk. vm_compute. reflexivity.
    + destruct (Hv (entry 2 3 [20%N] [])) as [Hhead _];
        [vm_compute; reflexivity|exact Hhead].
Defined.

(** ** When the calls raise *)

(** [remove_spend] raises nothing but [KeyError]. *)
Lemma remove_spend_raises_KeyError item m e m' :
  remove_spend item m = Raise e m' → e = KeyError.
Proof.
  intros Hrm. pose proof (remove_spend_inv item m) as Hinv.
  rewrite Hrm in Hinv. by destruct Hinv as [-> _].
Qed.

(** X4. When [add_to_pool] raises.  It raises [IndexError], leaving the
    pool untouched, exactly when the pool is at full capacity and
    [sorted_spends] offers no entry to evict; it raises [KeyError], leaving
    the pool as the failed removal left it, exactly when the pool is at
    full capacity and [remove_spend] of the entry to evict raises; it
    completes in every other case.  Whenever it raises, nothing has been
    inserted: [sorted_spends] and the capacity are untouched and [spends]
    holds nothing it did not hold before. *)
Theorem add_to_pool_raises m item al rd :
  (∀ m', add_to_pool item al rd m = Raise IndexError m' ↔
         size m <= len (spends m) ∧ victim m = None ∧ m' = m) ∧
  (∀ m', add_to_pool item al rd m = Raise KeyError m' ↔
         size m <= len (spends m) ∧
         ∃ v, victim m = Some v ∧ remove_spend v m = Raise KeyError m') ∧
  ((∃ m', add_to_pool item al rd m = Ok tt m') ↔
   len (spends m) < size m ∨
   ∃ v m1, victim m = Some v ∧ remove_spend v m = Ok tt m1) ∧
  (∀ e m', add_to_pool item al rd m = Raise e m' →
           sorted_spends m' = sorted_spends m ∧
           size m' = size m ∧
           ∀ k it, spends m' !! k = Some it → spends m !! k = Some it).
Proof.
  rewrite add_to_pool_eq, evict_eq.
  destruct (decide (size m <= len (spends m))) as [Hfull|Hnot].
  - rewrite bool_decide_true by done.
    destruct (victim m) as [v|] eqn:Hv.
    + pose proof (remove_spend_inv v m) as Hinv.
      destruct (remove_spend v m) as [[] m1|e1 m1] eqn:Hrm.
      * split_and!.
        -- intros m'. split; [done|]. by intros (_ & ? & _).
        -- intros m'. split; [done|]. intros (_ & v' & [= <-] & ?). congruence.
        -- split; [|by eauto]. intros _. right. by exists v, m1.
        -- done.
      * destruct Hinv as (-> & Hss & Hsz & Hsp). split_and!.
        -- intros m'. split; [done|]. by intros (_ & ? & _).
        -- intros m'. split.
           ++ intros [= <-]. split; [done|]. by exists v.
           ++ intros (_ & v' & [= <-] & Hr). rewrite Hrm in Hr. by injection Hr as <-.
        -- split; [by intros [? ?]|].
           intros [?|(v' & m2 & [= <-] & ?)]; [lia|congruence].
        -- intros e m' [= <- <-]. split_and!; try done.
           intros k it. destruct Hsp as [->|[_ ->]]; [done|].
           rewrite lookup_delete_Some. by intros [_ ?].
    + split_and!.
      * intros m'. split; [by intros [= <-]|]. by intros (_ & _ & ->).
      * intros m'. split; [done|]. by intros (_ & v & ? & _).
      * split; [by intros [? ?]|]. intros [?|(v & m1 & ? & _)]; [lia|done].
      * by intros e m' [= <- <-].
  - rewrite bool_decide_false by done. split_and!.
    + intros m'. split; [done|]. by intros (? & _).
    + intros m'. split; [done|]. by intros (? & _).
    + split; [intros _; left; lia|by eauto].
    + done.
Qed.

Lemma add_to_pool_raises_witness :
  add_to_pool eY (additions_of eY) (removals_dic_of eY) pool_nocoins
  = Raise KeyError pool_nocoins ∧
  add_to_pool eX (additions_of eX) (removals_dic_of eX) (create tip0 0)
  = Raise IndexError (create tip0 0) ∧
  ∃ m', add_to_pool eY (additions_of eY) (removals_dic_of eY) pool_X = Ok tt m'.
Proof.
  split_and!.
  - apply (add_to_pool_raises pool_nocoins eY). split.
    + vm_compute. discriminate.
    + exists eX. split; vm_compute; reflexivity.
  - apply (add_to_pool_raises (create tip0 0) eX). split_and!.
    + vm_compute. discriminate.
    + reflexivity.
    + reflexivity.
  - apply (add_to_pool_raises pool_X eY). left. vm_compute; reflexivity.
Defined.

Lemma coherent_ids_sorted_nil m :
  coherent_ids m → (sorted_spends m = [] ↔ spends m = ∅).
Proof.
  intros Hm. split.
  - intros Hnil. apply map_empty. intros k.
    destruct (spends m !! k) as [it|] eqn:Hit; [|done].
    destruct (coh_spends m Hm _ _ Hit) as (_ & b & Hb & _).
    by rewrite Hnil in Hb.
  - intros Hempty. pose proof (coh_no_empty m Hm) as Hne.
    pose proof (coh_bucket m Hm) as Hbk.
    destruct (sorted_spends m) as [|[f [|[k0 v] b]] d]; [done| |].
    + apply Forall_cons in Hne as [Hne _]. done.
    + destruct (Hbk f ((k0, v) :: b)) as [_ Hbe];
        [simpl; by rewrite Qccompare_refl|].
      destruct (Hbe k0 v) as (_ & _ & Hsp); [simpl; by rewrite decide_True|].
      by rewrite Hempty, lookup_empty in Hsp.
Qed.

(** X5. [get_min_fee_rate] raises exactly on an empty pool whose capacity
    is zero or less (it then raises [IndexError] and leaves the pool as it
    is); on every other pool with coherent [spends] and [sorted_spends] it
    returns. *)
Theorem get_min_fee_rate_raises_iff m :
  coherent_ids m →
  ((∃ e m', get_min_fee_rate m = Raise e m') ↔
   (size m <= 0 ∧ spends m = ∅)) ∧
  (∀ e m', get_min_fee_rate m = Raise e m' → e = IndexError ∧ m' = m).
Proof.
  intros Hm. rewrite get_min_fee_rate_eq.
  pose proof (coherent_ids_sorted_nil m Hm) as Hnil.
  split; [split|].
  - intros (e & m' & Hr). case_bool_decide as Hfull; [|done].
    destruct (sorted_spends m) as [|kv d]; [|done].
    assert (spends m = ∅) as Hempty by by apply Hnil.
    split; [|done]. rewrite Hempty in Hfull. unfold len in Hfull.
    by rewrite map_size_empty in Hfull.
  - intros [Hsz Hempty]. apply Hnil in Hempty as Hd. rewrite Hd.
    rewrite bool_decide_true; [by eauto|].
    rewrite Hempty. unfold len. rewrite map_size_empty. lia.
  - intros e m'. case_bool_decide; [|done].
    destruct (sorted_spends m); [|done]. by intros [= <- <-].
Qed.

Lemma get_min_fee_rate_raises_iff_witness :
  ∃ e m', get_min_fee_rate (create tip0 0) = Raise e m'.
Proof.
  apply (get_min_fee_rate_raises_iff (create tip0 0)).
  - apply create_coherent_ids.
  - split; [vm_compute; discriminate|reflexivity].
Defined.

(** [remove_spend] never touches the tip, the capacity or [min_fee]. *)
Lemma remove_spend_configuration item m :
  header (state_of (remove_spend item m)) = header m ∧
  size (state_of (remove_spend item m)) = size m ∧
  min_fee (state_of (remove_spend item m)) = min_fee m.
Proof.
  pose proof (remove_spend_inv item m) as Hinv.
  destruct (remove_spend item m) as [[] m'|e m'] eqn:Hrm; simpl.
  { destruct Hinv as (b & _ & _ & _ & ->). done. }
  clear Hinv. revert Hrm. unfold remove_spend. unfold bind at 1.
  pose proof (for_each_del_removals_inv (sb_removals (spend_bundle item)) m) as H1.
  destruct (for_each (sb_removals _) _ m) as [[] m1|e1 m1];
    [|destruct H1 as [_ [R ->]]; by intros [= _ <-]].
  subst m1. unfold bind at 1.
  match goal with |- context [for_each (sb_additions _) _ ?m1] =>
    pose proof (for_each_del_additions_inv (sb_additions (spend_bundle item)) m1) as H2;
    destruct (for_each (sb_additions _) _ m1) as [[] m2|e2 m2]
  end; [|destruct H2 as [_ [R ->]]; by intros [= _ <-]].
  subst m2. unfold bind at 1, del_spends at 1. simpl.
  destruct (spends m !! name item) as [it|]; [|by intros [= _ <-]].
  unfold bind at 1, del_sorted_spends_item at 1, bind at 1,
    sorted_spends_getitem at 1. simpl.
  destruct (sd_get (fee_per_cost item) (sorted_spends m)) as [b|];
    [|by intros [= _ <-]].
  destruct (dict_get (name item) b) as [it'|];
    [|unfold raise; by intros [= _ <-]].
  unfold modify at 1. simpl.
  unfold bind at 1, sorted_spends_getitem at 1. simpl.
  rewrite sd_get_set, decide_True by done.
  case_bool_decide; [|done].
  unfold del_sorted_spends. simpl. by rewrite sd_get_set, decide_True.
Qed.

Lemma exec_configuration call m :
  header (state_of (exec call m)) = header m ∧
  size (state_of (exec call m)) = size m ∧
  min_fee (state_of (exec call m)) = min_fee m.
Proof.
  destruct call as [item al rd|item]; simpl; [|apply remove_spend_configuration].
  rewrite add_to_pool_eq, evict_eq.
  case_bool_decide; [|done].
  destruct (victim m) as [v|]; [|done].
  pose proof (remove_spend_configuration v m) as Hcfg.
  by destruct (remove_spend v m) as [[] m1|e m1].
Qed.

(** X6. No sequence of calls ever changes the configuration of the pool:
    whatever the calls and whether they return or raise, the chain tip, the
    capacity and [min_fee] stay as they were at creation; in particular
    [min_fee] is never updated. *)
Theorem configuration_unchanged cs m :
  header (run cs m) = header m ∧
  size (run cs m) = size m ∧
  min_fee (run cs m) = min_fee m.
Proof.
  revert m. induction cs as [|call cs IH]; intros m; simpl; [done|].
  destruct (IH (state_of (exec call m))) as (-> & -> & ->).
  apply exec_configuration.
Qed.

(** X7. [remove_spend] is not atomic: for an entry that is in [spends] and
    whose coins are in the coin indices, but whose id is not filed under
    its fee rate in [sorted_spends] (a stale fee rate, say), it raises
    [KeyError] after it has deleted the entry from [spends] and its coins
    from [removals] and [additions]; [sorted_spends] is untouched. *)
Theorem remove_spend_partial_failure item m :
  NoDup (consumed item) →
  (∀ c, c ∈ consumed item → is_Some (removals m !! c)) →
  NoDup (produced item) →
  (∀ c, c ∈ produced item → is_Some (additions m !! c)) →
  is_Some (spends m !! name item) →
  (∀ b, sd_get (fee_per_cost item) (sorted_spends m) = Some b →
        dict_get (name item) b = None) →
  remove_spend item m =
  Raise KeyError
    (mkMempool (header m) (delete (name item) (spends m)) (sorted_spends m)
               (del_keys (produced item) (additions m))
               (del_keys (consumed item) (removals m))
               (min_fee m) (size m)).
Proof.
  intros Hnr Hr Hna Ha [it Hsp] Hnot.
  unfold remove_spend.
  erewrite bind_Ok; [|by apply for_each_del_removals_Ok].
  erewrite bind_Ok; [|by apply for_each_del_additions_Ok].
  unfold bind at 1, del_spends at 1. simpl. rewrite Hsp.
  unfold bind at 1, del_sorted_spends_item at 1, bind at 1,
    sorted_spends_getitem at 1. simpl.
  destruct (sd_get (fee_per_cost item) (sorted_spends m)) as [b|] eqn:Hb.
  - by rewrite (Hnot b eq_refl).
  - done.
Qed.

Lemma remove_spend_partial_failure_witness :
  remove_spend (entry 1 9 [10%N] [11%N]) pool_X =
  Raise KeyError
    (mkMempool (header pool_X) (delete 1%N (spends pool_X)) (sorted_spends pool_X)
               (del_keys [11%N] (additions pool_X))
               (del_keys [10%N] (removals pool_X))
               (min_fee pool_X) (size pool_X)).
Proof.
  apply (remove_spend_partial_failure (entry 1 9 [10%N] [11%N]) pool_X).
  - apply (bool_decide_unpack _). vm_compute. exact I.
  - intros c Hc. apply elem_of_cons in Hc as [->|Hc];
      [exists eX; vm_compute; reflexivity|by apply elem_of_nil in Hc].
  - apply (bool_decide_unpack _). vm_compute. exact I.
  - intros c Hc. apply elem_of_cons in Hc as [->|Hc];
      [exists eX; vm_compute; reflexivity|by apply elem_of_nil in Hc].
  - exists eX. vm_compute; reflexivity.
  - intros b Hb. vm_compute in Hb. discriminate Hb.
Defined.

(** ** After a removal *)

(** X8. After any completed [remove_spend], in any pool reached by any
    sequence of calls from a created pool, the pool is below capacity
    ([at_full_capacity] returns [False]) and [get_min_fee_rate] returns 0:
    a removal always leaves room, so any fee rate is acceptable. *)
Theorem threshold_zero_after_removal tip c cs item m' :
  remove_spend item (run cs (create tip c)) = Ok tt m' →
  len (spends m') < size m' ∧
  at_full_capacity m' = Ok false m' ∧
  get_min_fee_rate m' = Ok 0%Qc m'.
Proof.
  intros Hrm.
  pose proof (run_within c cs (create tip c) (create_within tip c)) as [Hsz HJ].
  pose proof (remove_spend_inv item (run cs (create tip c))) as Hinv.
  rewrite Hrm in Hinv. destruct Hinv as (b & _ & _ & [it Hsp] & ->).
  assert (len (spends (removed item b (run cs (create tip c))))
          < size (removed item b (run cs (create tip c)))) as Hlt.
  { simpl. rewrite len_delete_Some by eauto.
    destruct HJ as [Hle|[He _]]; [lia|by rewrite He, lookup_empty in Hsp]. }
  split_and!.
  - done.
  - unfold at_full_capacity. by rewrite bool_decide_false by lia.
  - rewrite get_min_fee_rate_eq. by rewrite bool_decide_false by lia.
Qed.

Lemma threshold_zero_after_removal_witness :
  len (spends (run [add_call eX; add_call eY; RemoveSpend eY] (create tip0 2)))
  < size (run [add_call eX; add_call eY; RemoveSpend eY] (create tip0 2)) ∧
  at_full_capacity (run [add_call eX; add_call eY; RemoveSpend eY] (create tip0 2))
  = Ok false (run [add_call eX; add_call eY; RemoveSpend eY] (create tip0 2)) ∧
  get_min_fee_rate (run [add_call eX; add_call eY; RemoveSpend eY] (create tip0 2))
  = Ok 0%Qc (run [add_call eX; add_call eY; RemoveSpend eY] (create tip0 2)).
Proof.
  apply (threshold_zero_after_removal tip0 2 [add_call eX; add_call eY] eY).
  vm_compute; reflexivity.
Defined.

(** ** Consequences of the index invariant *)

(** X9. The keys of [sorted_spends] are exactly the fee rates of the
    admitted entries, in strictly ascending order, in every state reached
    from an empty pool by completed calls that admit no duplicate id and
    remove only admitted entries. *)
Theorem sorted_keys_are_fee_rates tip c m :
  steps admit_pre (create tip c) m →
  sd_sorted (sorted_spends m) ∧
  ∀ f, f ∈ (sorted_spends m).*1 ↔
       ∃ it, spends m !! name it = Some it ∧ fee_per_cost it = f.
Proof.
  intros Hsteps. pose proof (reachable_coherent_ids tip c m Hsteps) as Hm.
  split; [apply Hm|]. intros f. split.
  - intros Hin. apply list_elem_of_fmap in Hin as [[f' b] [-> Hin]]. simpl.
    pose proof (coh_no_empty m Hm) as Hne. unfold no_empty_bucket in Hne.
    rewrite Forall_forall in Hne. specialize (Hne _ Hin). simpl in Hne.
    apply sd_elem_get in Hin; [|apply Hm].
    destruct (coh_bucket m Hm _ _ Hin) as [_ Hbe].
    destruct b as [|[k it] b]; [done|].
    destruct (Hbe k it) as (<- & Hf & Hsp); [simpl; by rewrite decide_True|].
    by exists it.
  - intros (it & Hit & <-).
    destruct (coh_spends m Hm _ _ Hit) as (_ & b & Hb & _).
    apply sd_get_Some_elem in Hb. apply list_elem_of_fmap.
    by exists (fee_per_cost it, b).
Qed.

Lemma sorted_keys_are_fee_rates_witness :
  sd_sorted (sorted_spends pool_XY) ∧
  ∀ f, f ∈ (sorted_spends pool_XY).*1 ↔
       ∃ it, spends pool_XY !! name it = Some it ∧ fee_per_cost it = f.
Proof.
  apply (sorted_keys_are_fee_rates tip0 2 pool_XY).
  concrete_add pool_X eY. concrete_add (create tip0 2) eX. apply steps_init.
Defined.

(** X10. No double spend inside the pool: in every state reached from an
    empty pool by completed calls that respect the contract, the caller
    having resolved conflicts, two different admitted entries consume no
    common coin and produce no common coin. *)
Theorem no_double_spend tip c m it1 it2 :
  steps admit_pre_no_conflict (create tip c) m →
  spends m !! name it1 = Some it1 →
  spends m !! name it2 = Some it2 →
  it1 ≠ it2 →
  (∀ coin, coin ∈ consumed it1 → coin ∉ consumed it2) ∧
  (∀ coin, coin ∈ produced it1 → coin ∉ produced it2).
Proof.
  intros Hsteps H1 H2 Hne.
  pose proof (reachable_coherent tip c m Hsteps) as Hm.
  split; intros coin Hin1 Hin2; apply Hne.
  - destruct (coh_consumed m Hm _ _ H1) as [_ Hm1].
    destruct (coh_consumed m Hm _ _ H2) as [_ Hm2].
    specialize (Hm1 coin Hin1). specialize (Hm2 coin Hin2). congruence.
  - destruct (coh_produced m Hm _ _ H1) as [_ Hm1].
    destruct (coh_produced m Hm _ _ H2) as [_ Hm2].
    specialize (Hm1 coin Hin1). specialize (Hm2 coin Hin2). congruence.
Qed.

Lemma no_double_spend_witness :
  (∀ coin, coin ∈ consumed eX → coin ∉ consumed eY) ∧
  (∀ coin, coin ∈ produced eX → coin ∉ produced eY).
Proof.
  apply (no_double_spend tip0 2 pool_XY eX eY).
  - concrete_add pool_X eY. concrete_add (create tip0 2) eX. apply steps_init.
  - vm_compute; reflexivity.
  - vm_compute; reflexivity.
  - intros H. apply (f_equal name) in H. discriminate H.
Defined.

Lemma steps_size pre m0 m : steps pre m0 m → size m = size m0.
Proof.
  induction 1 as [|m item al rd m' _ IH _ Hadd|m item m' _ IH _ Hrm]; [done|..].
  - pose proof (exec_configuration (AddToPool item al rd) m) as (_ & Hsz & _).
    simpl in Hsz. rewrite Hadd in Hsz. simpl in Hsz. congruence.
  - pose proof (exec_configuration (RemoveSpend item) m) as (_ & Hsz & _).
    simpl in Hsz. rewrite Hrm in Hsz. simpl in Hsz. congruence.
Qed.

(** X11. No error under the contract: in every state reached from an empty
    pool of capacity at least 1 by completed calls that respect the
    contract, the caller having resolved conflicts, [add_to_pool] of any
    entry completes, and so does [remove_spend] of any admitted entry. *)
Theorem calls_complete tip c m :
  1 <= c →
  steps admit_pre_no_conflict (create tip c) m →
  (∀ item al rd, ∃ m', add_to_pool item al rd m = Ok tt m') ∧
  (∀ item, spends m !! name item = Some item →
           ∃ m', remove_spend item m = Ok tt m').
Proof.
  intros Hc Hsteps. pose proof (reachable_coherent tip c m Hsteps) as Hm.
  pose proof (steps_size _ _ _ Hsteps) as Hsz. simpl in Hsz.
  split.
  - intros item al rd.
    destruct (decide (size m <= len (spends m))) as [Hfull|Hnot].
    + destruct (add_to_pool_full m item al rd Hm) as (v & b & _ & _ & Hadd);
        [lia|done|]. eauto.
    + rewrite add_to_pool_not_full by lia. eauto.
  - intros item Hit.
    destruct (coherent_remove_Ok m item Hm Hit) as (b & _ & _ & Hrm). eauto.
Qed.

Lemma calls_complete_witness :
  (∀ item al rd, ∃ m', add_to_pool item al rd pool_XY = Ok tt m') ∧
  (∀ item, spends pool_XY !! name item = Some item →
           ∃ m', remove_spend item pool_XY = Ok tt m').
Proof.
  apply (calls_complete tip0 2 pool_XY).
  - vm_compute; discriminate.
  - concrete_add pool_X eY. concrete_add (create tip0 2) eX. apply steps_init.
Defined.

(** ** The admission threshold under eviction *)

(** X12. The admission threshold never goes down under fee-respecting
    admission: when a full pool (that satisfies the index invariant,
    capacity at least 1) admits a new entry whose fee rate is at least the
    current [get_min_fee_rate], the pool is full again afterwards and
    [get_min_fee_rate] returns a value that is at least the previous one. *)
Theorem threshold_never_decreases m item al rd r :
  coherent m → 1 <= size m → size m <= len (spends m) →
  spends m !! name item = None →
  get_min_fee_rate m = Ok r m →
  (r ≤ fee_per_cost item)%Qc →
  ∃ m' r', add_to_pool item al rd m = Ok tt m' ∧
           len (spends m') = len (spends m) ∧
           get_min_fee_rate m' = Ok r' m' ∧
           (r ≤ r')%Qc.
Proof.
  intros Hm H1 Hfull Hfresh Hmin Hle.
  destruct (add_to_pool_full m item al rd Hm H1 Hfull) as (v & b & Hv & Hb & Hadd).
  destruct (victim_coherent m v Hm Hv) as (Hsp & (b0 & d & Hd) & Hvmin).
  rewrite get_min_fee_rate_eq, bool_decide_true, Hd in Hmin by done.
  injection Hmin as <-. simpl in Hle.
  set (m' := inserted item al rd (removed v b m)).
  assert (name v ≠ name item) as Hne by congruence.
  assert (coherent_ids m') as Hm'.
  { apply inserted_coherent_ids.
    - apply removed_coherent_ids; [apply Hm|done..].
    - simpl. rewrite lookup_delete_ne; done. }
  assert (len (spends m') = len (spends m)) as Hlen.
  { simpl. unfold len.
    rewrite map_size_insert_None by (rewrite lookup_delete_ne; done).
    pose proof (len_delete_Some (name v) (spends m) (ltac:(eauto))) as Hdel.
    unfold len in Hdel. lia. }
  assert (size m' = size m) as Hsz by done.
  destruct (coherent_full_victim m' Hm') as [v' Hv']; [lia|lia|].
  destruct (victim_coherent m' v' Hm' Hv') as (Hsp' & (b' & d' & Hd') & _).
  exists m', (fee_per_cost v'). split_and!; try done.
  - rewrite get_min_fee_rate_eq, bool_decide_true, Hd' by lia. done.
  - simpl in Hsp'. apply lookup_insert_Some in Hsp' as [[_ <-]|[_ Hold]].
    + done.
    + apply lookup_delete_Some in Hold as [_ Hold]. by eapply Hvmin.
Qed.

Lemma threshold_never_decreases_witness :
  ∃ m' r', add_to_pool eZ (additions_of eZ) (removals_dic_of eZ) pool_XY
           = Ok tt m' ∧
           len (spends m') = len (spends pool_XY) ∧
           get_min_fee_rate m' = Ok r' m' ∧
           (Qc_of_Z 3 ≤ r')%Qc.
Proof.
  apply (threshold_never_decreases pool_XY eZ).
  - apply (reachable_coherent tip0 2).
    concrete_add pool_X eY. concrete_add (create tip0 2) eX. apply steps_init.
  - vm_compute; discriminate.
  - vm_compute; discriminate.
  - vm_compute; reflexivity.
  - vm_compute; reflexivity.
  - vm_compute; discriminate.
Defined.

(** X13. The threshold is advisory, [add_to_pool] does not enforce it: a
    full pool (that satisfies the index invariant, capacity at least 1)
    admits a new entry whose fee rate is strictly below the current
    [get_min_fee_rate] all the same, evicting an entry of higher fee rate
    for it; afterwards the threshold is the fee rate of the new entry, and
    the new entry is the one the next eviction picks. *)
Theorem threshold_not_enforced m item al rd r :
  coherent m → 1 <= size m → size m <= len (spends m) →
  spends m !! name item = None →
  get_min_fee_rate m = Ok r m →
  (fee_per_cost item < r)%Qc →
  ∃ v m', victim m = Some v ∧ fee_per_cost v = r ∧
          add_to_pool item al rd m = Ok tt m' ∧
          spends m' !! name v = None ∧
          spends m' !! name item = Some item ∧
          victim m' = Some item ∧
          get_min_fee_rate m' = Ok (fee_per_cost item) m'.
Proof.
  intros Hm H1 Hfull Hfresh Hmin Hlt.
  destruct (add_to_pool_full m item al rd Hm H1 Hfull) as (v & b & Hv & Hb & Hadd).
  destruct (victim_coherent m v Hm Hv) as (Hsp & (b0 & d & Hd) & Hvmin).
  rewrite get_min_fee_rate_eq, bool_decide_true, Hd in Hmin by done.
  injection Hmin as <-. simpl in Hlt.
  set (m1 := removed v b m). set (m' := inserted item al rd m1).
  assert (name v ≠ name item) as Hne by congruence.
  assert (coherent_ids m1) as Hm1
    by (apply removed_coherent_ids; [apply Hm|done..]).
  assert (spends m1 !! name item = None) as Hfresh1
    by (simpl; rewrite lookup_delete_ne; done).
  assert (victim m' = Some item) as Hv'.
  { unfold m'. rewrite victim_inserted by done.
    destruct (victim m1) as [v2|] eqn:Hv2; [|done].
    destruct (victim_coherent m1 v2 Hm1 Hv2) as (Hsp2 & _ & _).
    simpl in Hsp2. apply lookup_delete_Some in Hsp2 as [_ Hsp2].
    rewrite decide_True; [done|].
    eapply Qclt_le_trans; [exact Hlt|]. by eapply Hvmin. }
  assert (coherent_ids m') as Hm' by by apply inserted_coherent_ids.
  destruct (victim_coherent m' item Hm' Hv') as (Hsp' & (b' & d' & Hd') & _).
  assert (len (spends m') = len (spends m)) as Hlen.
  { simpl. unfold len.
    rewrite map_size_insert_None by (rewrite lookup_delete_ne; done).
    pose proof (len_delete_Some (name v) (spends m) (ltac:(eauto))) as Hdel.
    unfold len in Hdel. lia. }
  exists v, m'. split_and!; try done.
  - simpl. rewrite lookup_insert_ne by done. apply lookup_delete_eq.
  - rewrite get_min_fee_rate_eq, bool_decide_true, Hd'; [done|].
    rewrite Hlen. done.
Qed.

Lemma threshold_not_enforced_witness :
  ∃ v m', victim pool_XY = Some v ∧ fee_per_cost v = Qc_of_Z 3 ∧
          add_to_pool (entry 3 1 [30%N] [31%N]) [mkCoin 31%N]
                      [(30%N, mkCoin 30%N)] pool_XY = Ok tt m' ∧
          spends m' !! name v = None ∧
          spends m' !! 3%N = Some (entry 3 1 [30%N] [31%N]) ∧
          victim m' = Some (entry 3 1 [30%N] [31%N]) ∧
          get_min_fee_rate m' = Ok (Qc_of_Z 1) m'.
Proof.
  apply (threshold_not_enforced pool_XY (entry 3 1 [30%N] [31%N])).
  - apply (reachable_coherent tip0 2).
    concrete_add pool_X eY. concrete_add (create tip0 2) eX. apply steps_init.
  - vm_compute; discriminate.
  - vm_compute; discriminate.
  - vm_compute; reflexivity.
  - vm_compute; reflexivity.
  - vm_compute; reflexivity.
Defined.
